(** * slang/util/Hash.h: the wyhash-derived mixer, the per-type hash
      dispatch and the Boost-style hash combiner.

    The development follows the header top to bottom.  Unsigned 64-bit
    values ([uint64_t], [size_t], [uintptr_t] of an LP64 host) are integers
    of [Z] with the wrap-around of every operation written out; memory is a
    function from byte offsets (relative to the [key] pointer) to bytes, read
    in little-endian order, and every load is recorded in a log so that the
    set of offsets a call touches can be stated. *)

From Stdlib Require Import ZArith Lia List Bool.
From Stdlib Require Import Strings.Byte.
From Stdlib Require Import Sorting.Permutation.
Import ListNotations.
Local Open Scope Z_scope.

(** ** Machine words *)

Module Word.

Definition modulus32 : Z := 2 ^ 32.
Definition modulus64 : Z := 2 ^ 64.
Definition modulus128 : Z := 2 ^ 128.

(** [static_cast<uint64_t>], [static_cast<uint32_t>] and the implicit
    truncation of [__uint128_t] arithmetic. *)
Definition to_u32 (x : Z) : Z := x mod modulus32.
Definition to_u64 (x : Z) : Z := x mod modulus64.
Definition to_u128 (x : Z) : Z := x mod modulus128.

Definition add64 (x y : Z) : Z := to_u64 (x + y).
Definition mul64 (x y : Z) : Z := to_u64 (x * y).
Definition shl64 (x n : Z) : Z := to_u64 (Z.shiftl x n).
Definition shr64 (x n : Z) : Z := Z.shiftr x n.
Definition xor64 (x y : Z) : Z := Z.lxor x y.
Definition or64 (x y : Z) : Z := Z.lor x y.

(** [static_cast<uint64_t>(x < y)] *)
Definition lt64 (x y : Z) : Z := if x <? y then 1 else 0.

Definition is_u64 (x : Z) : Prop := 0 <= x < modulus64.

End Word.
Import Word.

(** C-like infix operators on 64-bit words; the [%] recalls the reduction
    modulo [2 ^ 64]. *)
Notation "x +% y" := (add64 x y) (at level 50, left associativity).
Notation "x *% y" := (mul64 x y) (at level 40, left associativity).
Notation "x <<% n" := (shl64 x n) (at level 30, no associativity).
Notation "x >>% n" := (shr64 x n) (at level 30, no associativity).
Notation "x ^% y" := (xor64 x y) (at level 50, left associativity).
Notation "x |% y" := (or64 x y) (at level 50, left associativity).

(** ** detail::hashing::mum and mix *)

(** The three bodies of [mum] selected by the preprocessor. *)
Inductive mul_path : Type :=
| Int128      (* defined(__SIZEOF_INT128__) *)
| Umul128     (* defined(_MSC_VER) && defined(_M_X64) *)
| Portable.   (* neither *)

(** [__uint128_t r = *a; r *= *b; *a = (uint64_t)r; *b = (uint64_t)(r >> 64)] *)
Definition mum_int128 (a b : Z) : Z * Z :=
  let r := to_u128 a in
  let r := to_u128 (r * b) in
  (to_u64 r, to_u64 (Z.shiftr r 64)).

(** The MSVC intrinsic [_umul128(x, y, &hi)]: returns the low 64 bits of the
    full product and stores the high 64 bits. *)
Definition _umul128 (x y : Z) : Z * Z :=
  (to_u64 (x * y), to_u64 (Z.shiftr (x * y) 64)).

Definition mum_umul128 (a b : Z) : Z * Z := _umul128 a b.

Definition mum_portable (a b : Z) : Z * Z :=
  let ha := a >>% 32 in
  let hb := b >>% 32 in
  let la := to_u32 a in
  let lb := to_u32 b in
  let rh := ha *% hb in
  let rm0 := ha *% lb in
  let rm1 := hb *% la in
  let rl := la *% lb in
  let t := rl +% (rm0 <<% 32) in
  let c := lt64 t rl in
  let lo := t +% (rm1 <<% 32) in
  let c := c +% lt64 lo t in
  let hi := rh +% (rm0 >>% 32) +% (rm1 >>% 32) +% c in
  (lo, hi).

Definition mum_on (path : mul_path) (a b : Z) : Z * Z :=
  match path with
  | Int128 => mum_int128 a b
  | Umul128 => mum_umul128 a b
  | Portable => mum_portable a b
  end.

(** [mum(&a, &b); return a ^ b;] *)
Definition mix_on (path : mul_path) (a b : Z) : Z :=
  let '(a', b') := mum_on path a b in a' ^% b'.

(** The rest of the header is modelled on a host with a 128-bit integer
    type; the three bodies agree on 64-bit operands (proved below), which
    makes the choice immaterial. *)
Definition mum : Z -> Z -> Z * Z := mum_on Int128.
Definition mix : Z -> Z -> Z := mix_on Int128.

(** ** Memory and logged loads *)

(** The bytes reachable from the [key] pointer, by offset.  A call never
    learns anything about memory except through [byte_at]. *)
Definition memory : Type := Z -> byte.

(** What running a piece of code gives: its value, or [None] when a loop ran
    out of fuel, together with the offsets it loaded from.  The log follows
    the statements of the source; inside one expression it takes the
    operands left to right, where C++ leaves the order of evaluation open
    (the two [r8] arguments of a [mix] call may be loaded either way round).
    The order of the log is therefore the model's: what is proved of the
    source is which offsets are loaded and how often. *)
Record outcome (A : Type) : Type := Outcome { result : option A; loads : list Z }.
Arguments Outcome {A} _ _.
Arguments result {A} _.
Arguments loads {A} _.

Definition Load (A : Type) : Type := memory -> outcome A.

Definition ret {A} (a : A) : Load A := fun _ => Outcome (Some a) [].

Definition bind {A B} (m : Load A) (f : A -> Load B) : Load B :=
  fun mem =>
    match m mem with
    | Outcome (Some a) l => let o := f a mem in Outcome (result o) (l ++ loads o)
    | Outcome None l => Outcome None l
    end.

Definition out_of_fuel {A} : Load A := fun _ => Outcome None [].

Notation "x <- m ;; k" := (bind m (fun x => k))
  (at level 61, m at next level, right associativity).
Notation "' pat <- m ;; k" := (bind m (fun x => match x with pat => k end))
  (at level 61, pat pattern, m at next level, right associativity).

(** [p[0]] for [p] at offset [o]: one byte, widened. *)
Definition byte_at (o : Z) : Load Z :=
  fun mem => Outcome (Some (Z.of_N (Byte.to_N (mem o)))) [o].

(** [std::memcpy(&v, p, n)] into a zero-initialised integer on a
    little-endian host: byte [k] of the source is bits [8k .. 8k+7]. *)
Fixpoint memcpy_le (n : nat) (o : Z) : Load Z :=
  match n with
  | O => ret 0
  | S k => b <- byte_at o ;; v <- memcpy_le k (o + 1) ;; ret (b + 256 * v)
  end.

Definition r8 (p : Z) : Load Z := memcpy_le 8 p.

Definition r4 (p : Z) : Load Z := memcpy_le 4 p.

(** [k - 1] on [size_t]. *)
Definition sub64 (x y : Z) : Z := to_u64 (x - y).
Notation "x -% y" := (sub64 x y) (at level 50, left associativity).

Definition r3 (p : Z) (k : Z) : Load Z :=
  b0 <- byte_at (p + 0) ;;
  b1 <- byte_at (p + (k >>% 1)) ;;
  b2 <- byte_at (p + (k -% 1)) ;;
  ret ((b0 <<% 16) |% (b1 <<% 8) |% b2).

(** ** detail::hashing::hash(void const*, size_t) *)

Definition secret (i : nat) : Z :=
  nth i [0xa0761d6478bd642f; 0xe7037ed1a0b428db;
         0x8ebc6af09c88c6e3; 0x589965cc75374cc3] 0.

(** [do { ... } while (i > 48);] over the state [(seed, see1, see2, p, i)];
    [p] is the offset of the moving pointer from [key]. *)
Fixpoint do_while48 (fuel : nat) (seed see1 see2 p i : Z)
  : Load (Z * Z * Z * Z * Z) :=
  match fuel with
  | O => out_of_fuel
  | S fuel' =>
      x0 <- r8 p ;; x1 <- r8 (p + 8) ;;
      let seed := mix (x0 ^% secret 1) (x1 ^% seed) in
      y0 <- r8 (p + 16) ;; y1 <- r8 (p + 24) ;;
      let see1 := mix (y0 ^% secret 2) (y1 ^% see1) in
      z0 <- r8 (p + 32) ;; z1 <- r8 (p + 40) ;;
      let see2 := mix (z0 ^% secret 3) (z1 ^% see2) in
      let p := p + 48 in
      let i := i -% 48 in
      if i >? 48 then do_while48 fuel' seed see1 see2 p i
      else ret (seed, see1, see2, p, i)
  end.

(** [while (i > 16) { ... }] over the state [(seed, p, i)]. *)
Fixpoint while16 (fuel : nat) (seed p i : Z) : Load (Z * Z * Z) :=
  if i >? 16 then
    match fuel with
    | O => out_of_fuel
    | S fuel' =>
        x0 <- r8 p ;; x1 <- r8 (p + 8) ;;
        let seed := mix (x0 ^% secret 1) (x1 ^% seed) in
        let i := i -% 16 in
        let p := p + 16 in
        while16 fuel' seed p i
    end
  else ret (seed, p, i).

(** The body of [hash(key, len)] with [key] at offset 0.  Every iteration of
    either loop lowers [i] by at least 16, so [len] iterations are more
    than the loops can use. *)
Definition hash (len : Z) : Load Z :=
  let p := 0 in
  let seed := secret 0 in
  '(a, b, seed) <-
    (if len <=? 16 then
       if len >=? 4 then
         a0 <- r4 p ;;
         a1 <- r4 (p + ((len >>% 3) <<% 2)) ;;
         b0 <- r4 (p + len - 4) ;;
         b1 <- r4 (p + len - 4 - ((len >>% 3) <<% 2)) ;;
         ret ((a0 <<% 32) |% a1, (b0 <<% 32) |% b1, seed)
       else if len >? 0 then
         a <- r3 p len ;; ret (a, 0, seed)
       else ret (0, 0, seed)
     else
       let i := len in
       let fuel := Z.to_nat len in
       '(seed, p, i) <-
         (if i >? 48 then
            '(seed, see1, see2, p, i) <- do_while48 fuel seed seed seed p i ;;
            ret (seed ^% (see1 ^% see2), p, i)
          else ret (seed, p, i)) ;;
       '(seed, p, i) <- while16 fuel seed p i ;;
       a <- r8 (p + i - 16) ;;
       b <- r8 (p + i - 8) ;;
       ret (a, b, seed)) ;;
  ret (mix (secret 1 ^% len) (mix (a ^% secret 1) (b ^% seed))).

(** [hash(uint64_t x)] *)
Definition hash_u64 (x : Z) : Z := mix x 0x9E3779B97F4A7C15.

(** A buffer given by its bytes; offsets past the end read as zero bytes (the
    log, not the value, tells whether a call went there). *)
Definition memory_of (bytes : list byte) : memory :=
  fun o => if (0 <=? o) && (o <? Z.of_nat (length bytes))
           then nth (Z.to_nat o) bytes x00 else x00.

(** ** The [hash<T>] specialisations *)

(** [template<typename T> struct hash]: one instance per specialisation;
    [hasher v] is [hash<T>{}(v)]. *)
Class Hash (T : Type) : Type := hasher : T -> Z.

(** The primary template defers to [std::hash<T>], which the header does
    not define: it is whatever the environment supplies. *)
Definition hash_primary {T : Type} (std_hash : T -> Z) : Hash T :=
  fun obj => std_hash obj.

(** *** Reference wrappers *)

(** A pointer is its address; [reinterpret_cast<uintptr_t>] reads it off. *)
Record pointer : Type := Pointer { address : Z }.
Definition nullptr : pointer := Pointer 0.
Definition reinterpret_cast_uintptr (ptr : pointer) : Z := address ptr.

(** [std::unique_ptr<T>] and [std::shared_ptr<T>] as far as the header looks
    at them: the stored pointer returned by [get()], null when empty. *)
Record unique_ptr : Type := UniquePtr { unique_get : pointer }.
Record shared_ptr : Type := SharedPtr { shared_get : pointer; use_count : nat }.

#[export] Instance hash_raw_pointer : Hash pointer :=
  fun ptr => hash_u64 (reinterpret_cast_uintptr ptr).

#[export] Instance hash_unique_ptr : Hash unique_ptr :=
  fun ptr => hash_u64 (reinterpret_cast_uintptr (unique_get ptr)).

#[export] Instance hash_shared_ptr : Hash shared_ptr :=
  fun ptr => hash_u64 (reinterpret_cast_uintptr (shared_get ptr)).

(** *** Integral types and enumerations *)

(** The types [SLANG_HASH_STATICCAST] is instantiated with. *)
Inductive integral : Type :=
| t_bool | t_char | t_signed_char | t_unsigned_char
| t_char16_t | t_char32_t | t_wchar_t
| t_short | t_unsigned_short | t_int | t_unsigned_int
| t_long | t_long_long | t_unsigned_long | t_unsigned_long_long.

(** Widths and signedness on an LP64 x86-64 System V host. *)
Definition width (T : integral) : Z :=
  match T with
  | t_bool | t_char | t_signed_char | t_unsigned_char => 8
  | t_char16_t | t_short | t_unsigned_short => 16
  | t_char32_t | t_wchar_t | t_int | t_unsigned_int => 32
  | t_long | t_long_long | t_unsigned_long | t_unsigned_long_long => 64
  end.

Definition is_signed (T : integral) : bool :=
  match T with
  | t_char | t_signed_char | t_wchar_t | t_short | t_int | t_long | t_long_long => true
  | _ => false
  end.

(** The values a variable of type [T] can hold. *)
Definition in_range (T : integral) (v : Z) : Prop :=
  if is_signed T then - 2 ^ (width T - 1) <= v < 2 ^ (width T - 1)
  else match T with
       | t_bool => 0 <= v <= 1
       | _ => 0 <= v < 2 ^ width T
       end.

(** A value tagged with its static type. *)
Record integer (T : integral) : Type := Int { int_value : Z }.
Arguments Int T int_value : clear implicits.
Arguments int_value {T} _.

(** [static_cast<uint64_t>(obj)]: the value modulo [2 ^ 64]. *)
Definition static_cast_uint64 (v : Z) : Z := to_u64 v.

Definition SLANG_HASH_STATICCAST (T : integral) : Hash (integer T) :=
  fun obj => hash_u64 (static_cast_uint64 (int_value obj)).

#[export] Instance hash_integral (T : integral) : Hash (integer T) :=
  SLANG_HASH_STATICCAST T.

(** An enumerator: the value of its underlying type. *)
Record enumeration (underlying : integral) : Type := Enum { enum_value : Z }.
Arguments Enum underlying enum_value : clear implicits.
Arguments enum_value {underlying} _.

(** [static_cast<underlying>(e)] *)
Definition static_cast_underlying {U : integral} (e : enumeration U) : integer U :=
  Int U (enum_value e).

#[export] Instance hash_enum (U : integral) : Hash (enumeration U) :=
  fun e => hash_u64 (static_cast_uint64 (int_value (static_cast_underlying e))).

(** ** hash_combine *)

(** One argument of a call, with the specialisation its type selects. *)
Record hashable : Type :=
  Hashable { h_type : Type; h_hash : Hash h_type; h_value : h_type }.
Arguments Hashable {h_type h_hash} h_value.

Definition hash_of (v : hashable) : Z := @hasher (h_type v) (h_hash v) (h_value v).

(** [hash_combine(size_t& seed, const T& v, Rest... rest)] and the overload
    that ends the recursion; the new value of [seed] is returned. *)
Fixpoint hash_combine (seed : Z) (args : list hashable) : Z :=
  match args with
  | [] => seed
  | v :: rest =>
      let seed :=
        seed ^% (hash_of v +% 0x9e3779b9 +% (seed <<% 6) +% (seed >>% 2)) in
      hash_combine seed rest
  end.

(** *** Tuples, pairs and vectors *)

(** [std::tuple<TT...>] with at least one field (the specialisation does not
    instantiate for the empty tuple, whose [Index] default would be
    [size_t(-1)]). *)
Record tuple : Type := Tuple { tuple_head : hashable; tuple_tail : list hashable }.

Definition fields (t : tuple) : list hashable := tuple_head t :: tuple_tail t.
Definition tuple_size (t : tuple) : nat := length (fields t).

(** [std::get<Index>(tuple)]; [Index] is below [tuple_size] wherever the
    header uses it. *)
Definition get (Index : nat) (t : tuple) : hashable :=
  nth Index (fields t) (tuple_head t).

(** [HashValueImpl<Tuple, Index>::apply(seed, tuple)] *)
Fixpoint HashValueImpl_apply (Index : nat) (seed : Z) (t : tuple) : Z :=
  match Index with
  | O => hash_combine seed [get 0 t]
  | S Index' =>
      let seed := HashValueImpl_apply Index' seed t in
      hash_combine seed [get Index t]
  end.

#[export] Instance hash_tuple : Hash tuple :=
  fun tt =>
    let seed := 0 in
    HashValueImpl_apply (tuple_size tt - 1) seed tt.

#[export] Instance hash_pair {T U : Type} `{Hash T} `{Hash U} : Hash (T * U) :=
  fun p =>
    let seed := 0 in
    hash_combine seed [Hashable (fst p); Hashable (snd p)].

(** [for (const auto& elem : v) hash_combine(seed, elem);] *)
#[export] Instance hash_vector {T : Type} `{Hash T} : Hash (list T) :=
  fun v =>
    let seed := 0 in
    fold_left (fun seed elem => hash_combine seed [Hashable elem]) v seed.

(** ** What the loads return: pure views of the buffer *)

Definition byte_value (mem : memory) (o : Z) : Z := Z.of_N (Byte.to_N (mem o)).

Fixpoint word_le (mem : memory) (n : nat) (o : Z) : Z :=
  match n with
  | O => 0
  | S k => byte_value mem o + 256 * word_le mem k (o + 1)
  end.

Definition word8 (mem : memory) (o : Z) : Z := word_le mem 8 o.
Definition word4 (mem : memory) (o : Z) : Z := word_le mem 4 o.

(** The last statement of [hash]. *)
Definition finish (len a b seed : Z) : Z :=
  mix (secret 1 ^% len) (mix (a ^% secret 1) (b ^% seed)).

(** One 48-byte chunk at offset [o]: the three lanes, each with its own
    secret and its own 16 bytes of the chunk. *)
Definition chunk48 (mem : memory) (o : Z) (s : Z * Z * Z) : Z * Z * Z :=
  let '(seed, see1, see2) := s in
  (mix (word8 mem o ^% secret 1) (word8 mem (o + 8) ^% seed),
   mix (word8 mem (o + 16) ^% secret 2) (word8 mem (o + 24) ^% see1),
   mix (word8 mem (o + 32) ^% secret 3) (word8 mem (o + 40) ^% see2)).

Fixpoint chunks48 (mem : memory) (n : nat) (o : Z) (s : Z * Z * Z) : Z * Z * Z :=
  match n with
  | O => s
  | S k => chunks48 mem k (o + 48) (chunk48 mem o s)
  end.

(** One 16-byte stride at offset [o]. *)
Definition stride16 (mem : memory) (o : Z) (seed : Z) : Z :=
  mix (word8 mem o ^% secret 1) (word8 mem (o + 8) ^% seed).

Fixpoint strides16 (mem : memory) (n : nat) (o : Z) (seed : Z) : Z :=
  match n with
  | O => seed
  | S k => strides16 mem k (o + 16) (stride16 mem o seed)
  end.

(** ** The branches of [hash] *)

(** What [r3] returns. *)
Definition word3 (mem : memory) (p k : Z) : Z :=
  (byte_value mem (p + 0) <<% 16) |% (byte_value mem (p + (k >>% 1)) <<% 8)
  |% byte_value mem (p + (k -% 1)).

(** The working words of the [4 <= len <= 16] branch. *)
Definition short_a (mem : memory) (len : Z) : Z :=
  (word4 mem 0 <<% 32) |% word4 mem ((len >>% 3) <<% 2).

Definition short_b (mem : memory) (len : Z) : Z :=
  (word4 mem (len - 4) <<% 32) |% word4 mem (len - 4 - ((len >>% 3) <<% 2)).

(** The seed after the loops of the [len > 16] branch, and the whole
    branch.  [(i - 1) / 48] and [(i - 1) / 16] count the iterations of a loop
    that runs while more than 48, respectively 16, bytes remain. *)
Definition chunk_count (len : Z) : nat :=
  if len >? 48 then Z.to_nat ((len - 1) / 48) else O.

Definition long_seed (mem : memory) (len : Z) : Z :=
  let n48 := chunk_count len in
  let seed :=
    if len >? 48 then
      let '(seed, see1, see2) :=
        chunks48 mem n48 0 (secret 0, secret 0, secret 0) in
      seed ^% (see1 ^% see2)
    else secret 0 in
  let consumed := 48 * Z.of_nat n48 in
  let n16 := Z.to_nat ((len - consumed - 1) / 16) in
  strides16 mem n16 consumed seed.

Definition long_value (mem : memory) (len : Z) : Z :=
  finish len (word8 mem (len - 16)) (word8 mem (len - 8)) (long_seed mem len).

(** The value of [hash] as a function of the buffer. *)
Definition hash_value (mem : memory) (len : Z) : Z :=
  if len <=? 16 then
    if len >=? 4 then finish len (short_a mem len) (short_b mem len) (secret 0)
    else if len >? 0 then finish len (word3 mem 0 len) 0 (secret 0)
    else finish len 0 0 (secret 0)
  else long_value mem len.

(** ** Statements about a run *)

(** Every logged offset lies in the window [lo <= o < hi]. *)
Definition within (lo hi : Z) (l : list Z) : Prop :=
  Forall (fun o => lo <= o < hi) l.

(** On memory [mem], [m] returns [v] and loads only inside the window. *)
Definition computes {A} (mem : memory) (lo hi : Z) (m : Load A) (v : A) : Prop :=
  result (m mem) = Some v /\ within lo hi (loads (m mem)).

(** A computation is [log_sound] when its outcome is fixed by the bytes at
    the offsets it logs: it has looked at nothing else. *)
Definition agree_on (l : list Z) (mem mem' : memory) : Prop :=
  forall o, In o l -> mem' o = mem o.

Definition log_sound {A} (m : Load A) : Prop :=
  forall mem mem', agree_on (loads (m mem)) mem mem' -> m mem' = m mem.

(** The two-argument step, [hash_combine(seed, v)]. *)
Definition combine_step (seed : Z) (v : hashable) : Z := hash_combine seed [v].

(** Equal length and pairwise equal elements, position by position. *)
Definition same_sequence {T : Type} (xs ys : list T) : Prop :=
  length xs = length ys /\ forall i, nth_error xs i = nth_error ys i.

(** ** The exact trace of a run *)

(** The [n] consecutive offsets from [o]. *)
Fixpoint offsets (o : Z) (n : nat) : list Z :=
  match n with
  | O => []
  | S k => o :: offsets (o + 1) k
  end.

(** On memory [mem], [m] returns [v] after loading exactly [l], in order. *)
Definition runs {A} (mem : memory) (m : Load A) (v : A) (l : list Z) : Prop :=
  m mem = Outcome (Some v) l.

(** Bytes left in [i] after the three-lane loop and the strides. *)
Definition stride_count (len : Z) : nat :=
  Z.to_nat ((len - 48 * Z.of_nat (chunk_count len) - 1) / 16).

(** The offsets [hash(key, len)] loads, each as often as it is loaded (listed
    in the order of the model's log). *)
Definition hash_loads (len : Z) : list Z :=
  if len <=? 16 then
    if len >=? 4 then
      let stride := (len >>% 3) <<% 2 in
      offsets 0 4 ++ offsets stride 4 ++
      offsets (len - 4) 4 ++ offsets (len - 4 - stride) 4
    else if len >? 0 then [0; len >>% 1; len -% 1]
    else []
  else
    offsets 0 (48 * chunk_count len + 16 * stride_count len)
    ++ offsets (len - 16) 16.

(** ** Text *)

(** [std::basic_string<CharT>] and [std::basic_string_view<CharT>] as the
    header sees them: the element width [sizeof(CharT)], the storage behind
    [data()] and the element count [size()]. *)
Record basic_string : Type :=
  BasicString { str_sizeof_CharT : Z; str_data : memory; str_size : Z }.
Record basic_string_view : Type :=
  BasicStringView { sv_sizeof_CharT : Z; sv_data : memory; sv_size : Z }.

(** The [uint64_t] a call hands back ([0] stands for a run that did not
    finish; [hash] always finishes). *)
Definition returned (o : outcome Z) : Z :=
  match result o with
  | Some v => v
  | None => 0
  end.

#[export] Instance hash_basic_string : Hash basic_string :=
  fun str => returned (hash (str_sizeof_CharT str *% str_size str) (str_data str)).

#[export] Instance hash_basic_string_view : Hash basic_string_view :=
  fun sv => returned (hash (sv_sizeof_CharT sv *% sv_size sv) (sv_data sv)).

(** A specialisation whose results are 64-bit words. *)
Definition hashes_to_u64 (T : Type) `{Hash T} : Prop :=
  forall v : T, is_u64 (hasher v).

(** ** Readings to the letter *)

(** The long branch if the three lanes took every full 48-byte chunk, that
    is [len / 48] of them, before the fold: the strides then run while more
    than 16 bytes remain and the tail words are read as in the source. *)
Definition hash_exhausting_full_chunks (mem : memory) (len : Z) : Z :=
  let n48 := Z.to_nat (len / 48) in
  let '(seed, see1, see2) :=
    chunks48 mem n48 0 (secret 0, secret 0, secret 0) in
  let seed := seed ^% (see1 ^% see2) in
  let consumed := 48 * Z.of_nat n48 in
  let n16 := Z.to_nat ((len - consumed - 1) / 16) in
  let seed := strides16 mem n16 consumed seed in
  finish len (word8 mem (len - 16)) (word8 mem (len - 8)) seed.


(** * Proofs *)

(** ** Proofs about the multiplication paths *)

Section MumPaths.

Lemma modulus64_split : modulus64 = modulus32 * modulus32.
Proof. reflexivity. Qed.

Lemma shr32_div (x : Z) : x >>% 32 = x / modulus32.
Proof. unfold shr64. rewrite Z.shiftr_div_pow2 by lia. reflexivity. Qed.

Lemma shl32_wrap (x : Z) :
  x <<% 32 = (x mod modulus32) * modulus32.
Proof.
  unfold shl64, to_u64. rewrite Z.shiftl_mul_pow2 by lia.
  change (2 ^ 32) with modulus32. rewrite modulus64_split.
  rewrite Z.mul_mod_distr_r by (unfold modulus32; lia). reflexivity.
Qed.

(** An unsigned addition wraps exactly when the result is below an operand. *)
Lemma add64_carry (x y : Z) :
  is_u64 x -> is_u64 y ->
  x + y = (x +% y) + lt64 (x +% y) x * modulus64.
Proof.
  unfold is_u64, add64, to_u64, lt64. intros Hx Hy.
  assert (Hm : 0 < modulus64) by (unfold modulus64; lia).
  destruct (Z_lt_le_dec (x + y) modulus64) as [Hs | Hs].
  - rewrite Z.mod_small by lia.
    destruct (Z.ltb_spec (x + y) x); lia.
  - replace ((x + y) mod modulus64) with (x + y - modulus64).
    + destruct (Z.ltb_spec (x + y - modulus64) x); lia.
    + apply Z.mod_unique with (q := 1); lia.
Qed.

Lemma add64_range (x y : Z) : is_u64 (x +% y).
Proof. unfold is_u64, add64, to_u64. apply Z.mod_pos_bound. reflexivity. Qed.

Lemma halves (x : Z) :
  is_u64 x ->
  x = (x / modulus32) * modulus32 + x mod modulus32 /\
  0 <= x / modulus32 < modulus32 /\ 0 <= x mod modulus32 < modulus32.
Proof.
  unfold is_u64. rewrite modulus64_split. intros Hx.
  assert (H32 : 0 < modulus32) by (unfold modulus32; lia).
  split; [| split].
  - rewrite (Z.div_mod x modulus32) at 1 by lia. ring.
  - split; [apply Z.div_pos; lia | apply Z.div_lt_upper_bound; lia].
  - apply Z.mod_pos_bound; lia.
Qed.

Lemma mul32_is_u64 (x y : Z) :
  0 <= x < modulus32 -> 0 <= y < modulus32 -> is_u64 (x * y).
Proof.
  unfold is_u64. rewrite modulus64_split. intros Hx Hy. split.
  - apply Z.mul_nonneg_nonneg; lia.
  - apply Z.mul_lt_mono_nonneg; lia.
Qed.

Lemma mul64_full_range (x y : Z) :
  is_u64 x -> is_u64 y -> 0 <= x * y < modulus64 * modulus64.
Proof.
  unfold is_u64. intros Hx Hy. split.
  - apply Z.mul_nonneg_nonneg; lia.
  - apply Z.mul_lt_mono_nonneg; lia.
Qed.

Lemma shifted_half_is_u64 (x : Z) :
  0 <= x < modulus32 -> is_u64 (x * modulus32).
Proof.
  unfold is_u64. rewrite modulus64_split. intros Hx. split.
  - apply Z.mul_nonneg_nonneg; unfold modulus32 in *; lia.
  - apply Z.mul_lt_mono_pos_r; unfold modulus32 in *; lia.
Qed.

Lemma mum_int128_product (a b : Z) :
  is_u64 a -> is_u64 b ->
  mum_int128 a b = ((a * b) mod modulus64, (a * b) / modulus64).
Proof.
  unfold is_u64, mum_int128, to_u128, to_u64. intros Ha Hb.
  assert (H64 : 0 < modulus64) by (unfold modulus64; lia).
  assert (H128 : modulus128 = modulus64 * modulus64) by reflexivity.
  assert (Hlt : modulus64 < modulus128) by reflexivity.
  assert (Hab : 0 <= a * b < modulus128)
    by (rewrite H128; apply mul64_full_range; assumption).
  rewrite (Z.mod_small a) by lia.
  rewrite (Z.mod_small (a * b)) by lia.
  rewrite Z.shiftr_div_pow2 by lia. change (2 ^ 64) with modulus64.
  f_equal. apply Z.mod_small. split.
  - apply Z.div_pos; lia.
  - apply Z.div_lt_upper_bound; lia.
Qed.

Lemma mum_portable_product (a b : Z) :
  is_u64 a -> is_u64 b ->
  mum_portable a b = ((a * b) mod modulus64, (a * b) / modulus64).
Proof.
  intros Ha Hb. unfold mum_portable.
  rewrite !shr32_div, !shl32_wrap. unfold to_u32.
  destruct (halves a Ha) as (Ea & Hha & Hla).
  destruct (halves b Hb) as (Eb & Hhb & Hlb).
  set (ha := a / modulus32) in *. set (la := a mod modulus32) in *.
  set (hb := b / modulus32) in *. set (lb := b mod modulus32) in *.
  pose proof (mul32_is_u64 ha hb Hha Hhb) as Hrh.
  pose proof (mul32_is_u64 ha lb Hha Hlb) as Hrm0.
  pose proof (mul32_is_u64 hb la Hhb Hla) as Hrm1.
  pose proof (mul32_is_u64 la lb Hla Hlb) as Hrl.
  unfold mul64, to_u64.
  rewrite (Z.mod_small (ha * hb)), (Z.mod_small (ha * lb)),
          (Z.mod_small (hb * la)), (Z.mod_small (la * lb)) by assumption.
  set (rh := ha * hb) in *. set (rm0 := ha * lb) in *.
  set (rm1 := hb * la) in *. set (rl := la * lb) in *.
  destruct (halves rm0 Hrm0) as (E0 & H0h & H0l).
  destruct (halves rm1 Hrm1) as (E1 & H1h & H1l).
  set (m0h := rm0 / modulus32) in *. set (m0l := rm0 mod modulus32) in *.
  set (m1h := rm1 / modulus32) in *. set (m1l := rm1 mod modulus32) in *.
  pose proof (shifted_half_is_u64 m0l H0l) as Hs0.
  pose proof (shifted_half_is_u64 m1l H1l) as Hs1.
  pose proof (add64_carry rl (m0l * modulus32) Hrl Hs0) as C1.
  set (t := rl +% m0l * modulus32) in *.
  pose proof (add64_range rl (m0l * modulus32)) as Ht. fold t in Ht.
  pose proof (add64_carry t (m1l * modulus32) Ht Hs1) as C2.
  set (lo := t +% m1l * modulus32) in *.
  pose proof (add64_range t (m1l * modulus32)) as Hlo. fold lo in Hlo.
  set (c1 := lt64 t rl) in *. set (c2 := lt64 lo t) in *.
  assert (Hc1 : 0 <= c1 <= 1) by (unfold c1, lt64; destruct (t <? rl); lia).
  assert (Hc2 : 0 <= c2 <= 1) by (unfold c2, lt64; destruct (lo <? t); lia).
  assert (Hprod : a * b = (rh + m0h + m1h + c1 + c2) * modulus64 + lo).
  { rewrite Ea, Eb. fold ha la hb lb.
    transitivity (rh * modulus64 + (rm0 + rm1) * modulus32 + rl).
    - unfold rh, rm0, rm1, rl. rewrite modulus64_split. ring.
    - rewrite E0, E1. rewrite modulus64_split in *. lia. }
  assert (Hm : 0 < modulus64) by (unfold modulus64; lia).
  assert (Hhi : 0 <= rh + m0h + m1h + c1 + c2 < modulus64).
  { split; [unfold is_u64 in *; lia |].
    pose proof (mul64_full_range a b Ha Hb) as Hfull.
    apply (Z.mul_lt_mono_pos_r modulus64); [exact Hm |].
    unfold is_u64 in *. lia. }
  assert (Elo : (a * b) mod modulus64 = lo).
  { symmetry. apply Z.mod_unique with (q := rh + m0h + m1h + c1 + c2);
      [left; exact Hlo | lia]. }
  assert (Ehi : (a * b) / modulus64 = rh + m0h + m1h + c1 + c2).
  { symmetry. apply Z.div_unique with (r := lo); [left; exact Hlo | lia]. }
  rewrite Elo, Ehi. f_equal.
  unfold add64, to_u64.
  rewrite (Z.mod_small (c1 + c2)) by lia.
  rewrite (Z.mod_small (rh + m0h)) by (unfold is_u64 in *; lia).
  rewrite (Z.mod_small (rh + m0h + m1h)) by (unfold is_u64 in *; lia).
  rewrite Z.mod_small by lia. lia.
Qed.

Lemma mum_umul128_product (a b : Z) :
  is_u64 a -> is_u64 b ->
  mum_umul128 a b = ((a * b) mod modulus64, (a * b) / modulus64).
Proof.
  unfold is_u64, mum_umul128, _umul128, to_u64. intros Ha Hb.
  assert (H64 : 0 < modulus64) by (unfold modulus64; lia).
  rewrite Z.shiftr_div_pow2 by lia. change (2 ^ 64) with modulus64.
  pose proof (mul64_full_range a b Ha Hb) as Hfull.
  f_equal. apply Z.mod_small. split.
  - apply Z.div_pos; lia.
  - apply Z.div_lt_upper_bound; lia.
Qed.

End MumPaths.

(** C1: on all 64-bit unsigned operands the portable body of [mum] (32-bit
    halves, four partial products, explicit carries) yields the same
    low/high pair as the 128-bit multiply, whichever of the three bodies is
    compiled, so [mix] returns the same value on every path. *)
Theorem mum_paths_agree (path : mul_path) (a b : Z) :
  is_u64 a -> is_u64 b ->
  mum_portable a b = mum_int128 a b /\
  mum_on path a b = mum_on Int128 a b /\
  mix_on path a b = mix_on Int128 a b.
Proof.
  intros Ha Hb.
  assert (E : mum_on path a b = mum_on Int128 a b).
  { destruct path; simpl.
    - reflexivity.
    - rewrite mum_umul128_product, mum_int128_product by assumption. reflexivity.
    - rewrite mum_portable_product, mum_int128_product by assumption. reflexivity. }
  split; [| split].
  - rewrite mum_portable_product, mum_int128_product by assumption. reflexivity.
  - exact E.
  - unfold mix_on. rewrite E. reflexivity.
Qed.

Lemma mum_paths_agree_witness :
  is_u64 18446744073709551615 /\ is_u64 16045690984833335023 /\
  mix_on Portable 18446744073709551615 16045690984833335023 =
  mix_on Int128 18446744073709551615 16045690984833335023.
Proof.
  assert (Ha : is_u64 18446744073709551615) by (unfold is_u64, modulus64; lia).
  assert (Hb : is_u64 16045690984833335023) by (unfold is_u64, modulus64; lia).
  split; [exact Ha | split; [exact Hb |]].
  exact (proj2 (proj2 (mum_paths_agree Portable _ _ Ha Hb))).
Defined.

(** ** A small program logic for [Load] *)

Section LoadLogic.

Variable mem : memory.
Variables lo hi : Z.

Lemma computes_ret {A} (a : A) : computes mem lo hi (ret a) a.
Proof. split; [reflexivity | constructor]. Qed.

Lemma computes_bind {A B} (m : Load A) (f : A -> Load B) (a : A) (b : B) :
  computes mem lo hi m a -> computes mem lo hi (f a) b ->
  computes mem lo hi (bind m f) b.
Proof.
  unfold computes, bind. intros [Hr Hl] [Hr' Hl'].
  destruct (m mem) as [r l]. simpl in *. subst r. simpl.
  split; [assumption | apply Forall_app; split; assumption].
Qed.

Lemma computes_byte_at (o : Z) :
  lo <= o < hi -> computes mem lo hi (byte_at o) (byte_value mem o).
Proof.
  intros Ho. split; [reflexivity |]. simpl. constructor; [exact Ho | constructor].
Qed.

Lemma computes_memcpy_le (n : nat) :
  forall o, lo <= o -> o + Z.of_nat n <= hi ->
  computes mem lo hi (memcpy_le n o) (word_le mem n o).
Proof.
  induction n as [| k IH]; intros o Hlo Hhi; simpl memcpy_le; simpl word_le.
  - apply computes_ret.
  - eapply computes_bind; [apply computes_byte_at; lia |].
    eapply computes_bind; [apply IH; lia |].
    apply computes_ret.
Qed.

Lemma computes_r8 (p : Z) :
  lo <= p -> p + 8 <= hi -> computes mem lo hi (r8 p) (word8 mem p).
Proof. intros. apply computes_memcpy_le; simpl; lia. Qed.

Lemma computes_r4 (p : Z) :
  lo <= p -> p + 4 <= hi -> computes mem lo hi (r4 p) (word4 mem p).
Proof. intros. apply computes_memcpy_le; simpl; lia. Qed.

Lemma gtb_true (x y : Z) : y < x -> (x >? y) = true.
Proof. intros H. rewrite Z.gtb_ltb. apply Z.ltb_lt. exact H. Qed.

Lemma gtb_false (x y : Z) : x <= y -> (x >? y) = false.
Proof. intros H. rewrite Z.gtb_ltb. apply Z.ltb_ge. exact H. Qed.

Lemma sub64_exact (x y : Z) : 0 <= y <= x -> is_u64 x -> x -% y = x - y.
Proof.
  unfold sub64, to_u64, is_u64. intros Hy Hx. apply Z.mod_small. lia.
Qed.

(** [while16] on [n] remaining strides: it applies [stride16] at [p],
    [p + 16], ... and stops with between 1 and 16 bytes left. *)
Lemma computes_while16 (n : nat) :
  forall fuel seed p i,
    16 * Z.of_nat n < i <= 16 * Z.of_nat n + 16 ->
    (n <= fuel)%nat -> is_u64 i -> lo <= p -> p + i <= hi ->
    computes mem lo hi (while16 fuel seed p i)
             (strides16 mem n p seed, p + 16 * Z.of_nat n, i - 16 * Z.of_nat n).
Proof.
  induction n as [| k IH]; intros fuel seed p i Hi Hfuel Hu Hp Hpi.
  - assert (E : (i >? 16) = false) by (apply gtb_false; lia).
    destruct fuel; simpl while16; rewrite E; simpl strides16;
      replace (p + 16 * Z.of_nat 0) with p by lia;
      replace (i - 16 * Z.of_nat 0) with i by lia; apply computes_ret.
  - assert (E : (i >? 16) = true) by (apply gtb_true; lia).
    destruct fuel as [| fuel]; [lia |].
    simpl while16. rewrite E.
    eapply computes_bind; [apply computes_r8; lia |].
    eapply computes_bind; [apply computes_r8; lia |].
    rewrite sub64_exact by (assumption || lia).
    replace (p + 16 * Z.of_nat (S k)) with ((p + 16) + 16 * Z.of_nat k) by lia.
    replace (i - 16 * Z.of_nat (S k)) with ((i - 16) - 16 * Z.of_nat k) by lia.
    simpl strides16. apply IH; unfold is_u64 in *; lia.
Qed.

(** [do_while48] on [n + 1] chunks: it applies [chunk48] at [p], [p + 48],
    ... and stops with between 1 and 48 bytes left. *)
Lemma computes_do_while48 (n : nat) :
  forall fuel seed see1 see2 p i,
    48 * Z.of_nat (S n) < i <= 48 * Z.of_nat (S n) + 48 ->
    (S n <= fuel)%nat -> is_u64 i -> lo <= p -> p + i <= hi ->
    computes mem lo hi (do_while48 fuel seed see1 see2 p i)
             (chunks48 mem (S n) p (seed, see1, see2),
              p + 48 * Z.of_nat (S n), i - 48 * Z.of_nat (S n)).
Proof.
  induction n as [| k IH]; intros fuel seed see1 see2 p i Hi Hfuel Hu Hp Hpi;
    (destruct fuel as [| fuel]; [lia |]); simpl do_while48;
    (eapply computes_bind; [apply computes_r8; lia |]);
    (eapply computes_bind; [apply computes_r8; lia |]);
    (eapply computes_bind; [apply computes_r8; lia |]);
    (eapply computes_bind; [apply computes_r8; lia |]);
    (eapply computes_bind; [apply computes_r8; lia |]);
    (eapply computes_bind; [apply computes_r8; lia |]);
    rewrite sub64_exact by (assumption || lia).
  - assert (E : (i - 48 >? 48) = false) by (apply gtb_false; lia).
    rewrite E. change (48 * Z.of_nat 1) with 48. apply computes_ret.
  - assert (E : (i - 48 >? 48) = true) by (apply gtb_true; lia).
    rewrite E.
    replace (p + 48 * Z.of_nat (S (S k))) with ((p + 48) + 48 * Z.of_nat (S k)) by lia.
    replace (i - 48 * Z.of_nat (S (S k))) with ((i - 48) - 48 * Z.of_nat (S k)) by lia.
    change (chunks48 mem (S (S k)) p (seed, see1, see2))
      with (chunks48 mem (S k) (p + 48) (chunk48 mem p (seed, see1, see2))).
    apply IH; unfold is_u64 in *; lia.
Qed.

End LoadLogic.

(** ** The log is complete *)

Section LogSound.

Lemma log_sound_ret {A} (a : A) : log_sound (ret a).
Proof. intros mem mem' _. reflexivity. Qed.

Lemma log_sound_out_of_fuel {A} : log_sound (@out_of_fuel A).
Proof. intros mem mem' _. reflexivity. Qed.

Lemma log_sound_byte_at (o : Z) : log_sound (byte_at o).
Proof.
  intros mem mem' Hagree. unfold byte_at.
  rewrite (Hagree o) by (simpl; left; reflexivity). reflexivity.
Qed.

Lemma log_sound_bind {A B} (m : Load A) (f : A -> Load B) :
  log_sound m -> (forall a, log_sound (f a)) -> log_sound (bind m f).
Proof.
  intros Hm Hf mem mem' Hagree. unfold bind in *.
  assert (Em : m mem' = m mem).
  { apply Hm. intros o Ho. apply Hagree.
    destruct (m mem) as [[a |] l]; simpl in *;
      [apply in_or_app; left; exact Ho | exact Ho]. }
  rewrite Em. destruct (m mem) as [[a |] l]; [| reflexivity].
  assert (Ef : f a mem' = f a mem).
  { apply Hf. intros o Ho. apply Hagree. simpl.
    apply in_or_app; right; exact Ho. }
  rewrite Ef. reflexivity.
Qed.

Lemma log_sound_memcpy_le (n : nat) : forall o, log_sound (memcpy_le n o).
Proof.
  induction n as [| k IH]; intros o; simpl memcpy_le.
  - apply log_sound_ret.
  - apply log_sound_bind; [apply log_sound_byte_at | intros b].
    apply log_sound_bind; [apply IH | intros v]. apply log_sound_ret.
Qed.

Lemma log_sound_r8 (p : Z) : log_sound (r8 p).
Proof. apply log_sound_memcpy_le. Qed.

Lemma log_sound_r4 (p : Z) : log_sound (r4 p).
Proof. apply log_sound_memcpy_le. Qed.

Lemma log_sound_r3 (p k : Z) : log_sound (r3 p k).
Proof.
  unfold r3.
  repeat (apply log_sound_bind; [apply log_sound_byte_at | intros ?]).
  apply log_sound_ret.
Qed.

Lemma log_sound_do_while48 (fuel : nat) :
  forall seed see1 see2 p i, log_sound (do_while48 fuel seed see1 see2 p i).
Proof.
  induction fuel as [| fuel IH]; intros seed see1 see2 p i; simpl do_while48.
  - apply log_sound_out_of_fuel.
  - repeat (apply log_sound_bind; [apply log_sound_r8 | intros ?]).
    destruct (i -% 48 >? 48); [apply IH | apply log_sound_ret].
Qed.

Lemma log_sound_while16 (fuel : nat) :
  forall seed p i, log_sound (while16 fuel seed p i).
Proof.
  induction fuel as [| fuel IH]; intros seed p i; simpl while16;
    destruct (i >? 16); try apply log_sound_ret.
  - apply log_sound_out_of_fuel.
  - repeat (apply log_sound_bind; [apply log_sound_r8 | intros ?]).
    apply IH.
Qed.

Lemma log_sound_hash (len : Z) : log_sound (hash len).
Proof.
  unfold hash. cbv zeta.
  apply log_sound_bind; [| intros [[a b] seed]; apply log_sound_ret].
  destruct (len <=? 16).
  - destruct (len >=? 4); [| destruct (len >? 0)].
    + repeat (apply log_sound_bind; [apply log_sound_r4 | intros ?]).
      apply log_sound_ret.
    + apply log_sound_bind; [apply log_sound_r3 | intros ?].
      apply log_sound_ret.
    + apply log_sound_ret.
  - apply log_sound_bind.
    + destruct (len >? 48); [| apply log_sound_ret].
      apply log_sound_bind; [apply log_sound_do_while48 |].
      intros [[[[seed see1] see2] p] i]. apply log_sound_ret.
    + intros [[seed p] i].
      apply log_sound_bind; [apply log_sound_while16 |].
      intros [[seed' p'] i'].
      repeat (apply log_sound_bind; [apply log_sound_r8 | intros ?]).
      apply log_sound_ret.
Qed.

End LogSound.

Ltac load_step :=
  lazymatch goal with
  | |- computes _ _ _ (bind (r8 _) _) _ =>
      eapply computes_bind; [apply computes_r8; lia | cbv beta iota]
  | |- computes _ _ _ (bind (r4 _) _) _ =>
      eapply computes_bind; [apply computes_r4; lia | cbv beta iota]
  | |- computes _ _ _ (bind (byte_at _) _) _ =>
      eapply computes_bind; [apply computes_byte_at; lia | cbv beta iota]
  end.

Section HashBranches.

Variable mem : memory.

Lemma shr64_div (x n : Z) : 0 <= n -> x >>% n = x / 2 ^ n.
Proof. intros Hn. unfold shr64. apply Z.shiftr_div_pow2. exact Hn. Qed.

Lemma short_stride_bounds (len : Z) :
  4 <= len <= 16 -> 0 <= (len >>% 3) <<% 2 <= len - 4.
Proof.
  intros Hlen. unfold shl64, to_u64.
  rewrite shr64_div, Z.shiftl_mul_pow2 by lia.
  change (2 ^ 3) with 8. change (2 ^ 2) with 4.
  pose proof (Z.mul_div_le len 8 ltac:(lia)) as Hq.
  assert (Hq0 : 0 <= len / 8) by (apply Z.div_pos; lia).
  assert (Hq2 : len / 8 <= 2) by (apply Z.div_le_upper_bound; lia).
  rewrite Z.mod_small by (unfold modulus64; lia). lia.
Qed.

Lemma tiny_offsets (len : Z) :
  0 < len < 4 -> 0 <= len >>% 1 < len /\ len -% 1 = len - 1.
Proof.
  intros Hlen. split.
  - rewrite shr64_div by lia. change (2 ^ 1) with 2. split.
    + apply Z.div_pos; lia.
    + apply Z.div_lt_upper_bound; lia.
  - apply sub64_exact; unfold is_u64, modulus64; lia.
Qed.

Lemma hash_empty : hash 0 mem = Outcome (Some (finish 0 0 0 (secret 0))) [].
Proof. reflexivity. Qed.

Lemma hash_tiny (len : Z) :
  0 < len < 4 ->
  computes mem 0 len (hash len) (finish len (word3 mem 0 len) 0 (secret 0)).
Proof.
  intros Hlen. unfold hash. cbv zeta.
  replace (len <=? 16) with true by (symmetry; apply Z.leb_le; lia).
  replace (len >=? 4) with false by (symmetry; rewrite Z.geb_leb; apply Z.leb_gt; lia).
  rewrite gtb_true by lia.
  destruct (tiny_offsets len Hlen) as [Hmid Hlast].
  eapply computes_bind.
  { eapply computes_bind; [| apply computes_ret].
    unfold r3.
    load_step. load_step.
    eapply computes_bind; [apply computes_byte_at; rewrite Hlast; lia |].
    apply computes_ret. }
  apply computes_ret.
Qed.

Lemma hash_short (len : Z) :
  4 <= len <= 16 ->
  computes mem 0 len (hash len)
           (finish len (short_a mem len) (short_b mem len) (secret 0)).
Proof.
  intros Hlen. unfold hash. cbv zeta.
  replace (len <=? 16) with true by (symmetry; apply Z.leb_le; lia).
  replace (len >=? 4) with true by (symmetry; rewrite Z.geb_leb; apply Z.leb_le; lia).
  pose proof (short_stride_bounds len Hlen) as Hs.
  eapply computes_bind.
  { load_step. load_step. load_step. load_step. apply computes_ret. }
  apply computes_ret.
Qed.

Lemma div_count (i d : Z) :
  0 < d -> 0 < i ->
  d * ((i - 1) / d) < i <= d * ((i - 1) / d) + d /\ 0 <= (i - 1) / d.
Proof.
  intros Hd Hi.
  pose proof (Z.mul_div_le (i - 1) d Hd).
  pose proof (Z.mul_succ_div_gt (i - 1) d Hd).
  assert (0 <= (i - 1) / d) by (apply Z.div_pos; lia).
  lia.
Qed.

Lemma enough_fuel (i d : Z) :
  1 < d -> 0 < i -> (Z.to_nat ((i - 1) / d) <= Z.to_nat i)%nat.
Proof.
  intros Hd Hi. apply Z2Nat.inj_le; [apply Z.div_pos; lia | lia |].
  apply Z.div_le_upper_bound; nia.
Qed.

Lemma hash_long (len : Z) :
  16 < len -> is_u64 len ->
  computes mem 0 len (hash len) (long_value mem len).
Proof.
  intros Hlen Hu. unfold hash. cbv zeta.
  replace (len <=? 16) with false by (symmetry; apply Z.leb_gt; lia).
  apply computes_bind
    with (a := (word8 mem (len - 16), word8 mem (len - 8), long_seed mem len));
    [| apply computes_ret].
  unfold long_seed, chunk_count.
  destruct (Z.gtb_spec len 48) as [Hbig | Hsmall].
  - (* three-lane loop first *)
    destruct (div_count len 48 ltac:(lia) ltac:(lia)) as [Hn48 Hn48pos].
    remember (Z.to_nat ((len - 1) / 48)) as n48 eqn:En48.
    assert (Hof : Z.of_nat n48 = (len - 1) / 48) by (subst n48; apply Z2Nat.id; lia).
    rewrite <- Hof in Hn48.
    destruct n48 as [| m]; [simpl in Hn48; lia |].
    pose proof (enough_fuel len 48 ltac:(lia) ltac:(lia)) as Hfuel48.
    rewrite <- En48 in Hfuel48.
    assert (Hloop : computes mem 0 len
              (do_while48 (Z.to_nat len) (secret 0) (secret 0) (secret 0) 0 len)
              (chunks48 mem (S m) 0 (secret 0, secret 0, secret 0),
               0 + 48 * Z.of_nat (S m), len - 48 * Z.of_nat (S m)))
      by (apply computes_do_while48; (assumption || lia)).
    destruct (chunks48 mem (S m) 0 (secret 0, secret 0, secret 0))
      as [[seed see1] see2].
    eapply computes_bind.
    { eapply computes_bind; [exact Hloop |]. cbv beta iota. apply computes_ret. }
    cbv beta iota.
    set (done := 48 * Z.of_nat (S m)) in *.
    replace (0 + done) with done by lia.
    assert (Hrest : 0 < len - done <= 48) by lia.
    destruct (div_count (len - done) 16 ltac:(lia) ltac:(lia)) as [Hn16 Hn16pos].
    remember (Z.to_nat ((len - done - 1) / 16)) as n16 eqn:En16.
    assert (Hof16 : Z.of_nat n16 = (len - done - 1) / 16)
      by (subst n16; apply Z2Nat.id; lia).
    rewrite <- Hof16 in Hn16.
    eapply computes_bind.
    { apply (computes_while16 mem 0 len n16); try lia.
      unfold is_u64 in *; lia. }
    cbv beta iota.
    replace (done + 16 * Z.of_nat n16 + (len - done - 16 * Z.of_nat n16) - 16)
      with (len - 16) by lia.
    replace (done + 16 * Z.of_nat n16 + (len - done - 16 * Z.of_nat n16) - 8)
      with (len - 8) by lia.
    load_step. load_step. apply computes_ret.
  - (* at most 48 bytes: strides only *)
    eapply computes_bind; [apply computes_ret |]. cbv beta iota.
    change (48 * Z.of_nat 0) with 0.
    replace (len - 0 - 1) with (len - 1) by lia.
    destruct (div_count len 16 ltac:(lia) ltac:(lia)) as [Hn16 Hn16pos].
    remember (Z.to_nat ((len - 1) / 16)) as n16 eqn:En16.
    assert (Hof16 : Z.of_nat n16 = (len - 1) / 16)
      by (subst n16; apply Z2Nat.id; lia).
    rewrite <- Hof16 in Hn16.
    eapply computes_bind.
    { apply (computes_while16 mem 0 len n16); (assumption || lia). }
    cbv beta iota.
    replace (0 + 16 * Z.of_nat n16 + (len - 16 * Z.of_nat n16) - 16)
      with (len - 16) by lia.
    replace (0 + 16 * Z.of_nat n16 + (len - 16 * Z.of_nat n16) - 8)
      with (len - 8) by lia.
    load_step. load_step. apply computes_ret.
Qed.

(** Every call returns, with the value [hash_value] and loads inside the
    buffer. *)
Lemma hash_computes (len : Z) :
  is_u64 len -> computes mem 0 len (hash len) (hash_value mem len).
Proof.
  intros Hu. unfold hash_value.
  destruct (Z.leb_spec len 16) as [Hle | Hgt].
  - destruct (Z_le_gt_dec 4 len) as [H4 | H4].
    + replace (len >=? 4) with true
        by (symmetry; rewrite Z.geb_leb; apply Z.leb_le; lia).
      apply hash_short; lia.
    + replace (len >=? 4) with false
        by (symmetry; rewrite Z.geb_leb; apply Z.leb_gt; lia).
      destruct (Z.gtb_spec len 0) as [Hpos | Hzero].
      * apply hash_tiny; lia.
      * assert (len = 0) by (unfold is_u64 in Hu; lia). subst len.
        unfold computes. rewrite hash_empty. split; [reflexivity | constructor].
  - apply hash_long; assumption.
Qed.

End HashBranches.

(** ** Properties of the mixer *)

Section MixerFacts.

Lemma log2_below_64 (a : Z) : is_u64 a -> Z.log2 a < 64.
Proof.
  unfold is_u64, modulus64. intros Ha.
  destruct (Z.eq_dec a 0) as [-> | Hnz]; [reflexivity |].
  apply Z.log2_lt_pow2; lia.
Qed.

Lemma lxor_is_u64 (a b : Z) : is_u64 a -> is_u64 b -> is_u64 (a ^% b).
Proof.
  intros Ha Hb. unfold xor64.
  assert (Hnn : 0 <= Z.lxor a b)
    by (apply Z.lxor_nonneg; unfold is_u64 in *; lia).
  split; [exact Hnn |].
  destruct (Z.eq_dec (Z.lxor a b) 0) as [E | Hnz];
    [rewrite E; reflexivity |].
  apply Z.log2_lt_pow2; [lia |].
  eapply Z.le_lt_trans; [apply Z.log2_lxor; unfold is_u64 in *; lia |].
  apply Z.max_lub_lt; apply log2_below_64; assumption.
Qed.

Lemma to_u64_is_u64 (x : Z) : is_u64 (to_u64 x).
Proof. unfold is_u64, to_u64. apply Z.mod_pos_bound. reflexivity. Qed.

Lemma mix_is_u64 (a b : Z) : is_u64 (mix a b).
Proof.
  unfold mix, mix_on, mum_on, mum_int128.
  apply lxor_is_u64; apply to_u64_is_u64.
Qed.

Lemma byte_value_range (mem : memory) (o : Z) : 0 <= byte_value mem o < 256.
Proof.
  unfold byte_value. pose proof (Byte.to_N_bounded (mem o)). lia.
Qed.

Lemma word_le_range (mem : memory) (n : nat) :
  forall o, 0 <= word_le mem n o < 256 ^ Z.of_nat n.
Proof.
  induction n as [| k IH]; intros o.
  - simpl. lia.
  - rewrite Nat2Z.inj_succ, Z.pow_succ_r by lia.
    change (word_le mem (S k) o)
      with (byte_value mem o + 256 * word_le mem k (o + 1)).
    pose proof (byte_value_range mem o). specialize (IH (o + 1)).
    set (P := 256 ^ Z.of_nat k) in *. lia.
Qed.

Lemma word4_range (mem : memory) (o : Z) : 0 <= word4 mem o < modulus32.
Proof. apply (word_le_range mem 4 o). Qed.

Lemma word4_high_half (mem : memory) (o : Z) :
  word4 mem o <<% 32 = word4 mem o * modulus32.
Proof.
  rewrite shl32_wrap. rewrite Z.mod_small by apply word4_range. reflexivity.
Qed.

End MixerFacts.

(** ** Theorems about [hash(key, len)] *)

(** C2: whatever the memory behind [key] and whatever [len], the call
    returns a 64-bit value and every byte it loads lies at an offset in
    [0, len), so that the outcome is the same for any two memories that
    agree on those offsets; with [len = 0] it loads nothing, and the result
    is one fixed constant whatever [key] points to (a null pointer
    included). *)
Theorem hash_loads_inside_buffer (mem : memory) (len : Z) :
  is_u64 len ->
  (exists h, result (hash len mem) = Some h /\ is_u64 h) /\
  Forall (fun o => 0 <= o < len) (loads (hash len mem)) /\
  (forall mem' : memory,
     (forall o, 0 <= o < len -> mem' o = mem o) -> hash len mem' = hash len mem) /\
  (len = 0 ->
   forall anything : memory,
     hash len anything = Outcome (Some 4808886099364463827) []).
Proof.
  intros Hu. destruct (hash_computes mem len Hu) as [Hres Hin].
  split; [| split; [| split]].
  - exists (hash_value mem len). split; [exact Hres |].
    unfold hash_value, long_value, finish.
    repeat match goal with |- context [if ?c then _ else _] => destruct c end;
      apply mix_is_u64.
  - exact Hin.
  - intros mem' Hagree. apply log_sound_hash.
    intros o Ho. apply Hagree.
    unfold within in Hin. rewrite Forall_forall in Hin. apply Hin. exact Ho.
  - intros -> anything. reflexivity.
Qed.

Lemma hash_loads_inside_buffer_witness :
  is_u64 5 /\
  Forall (fun o => 0 <= o < 5)
         (loads (hash 5 (memory_of [x61; x62; x63; x64; x65]))).
Proof.
  assert (Hu : is_u64 5) by (unfold is_u64, modulus64; lia).
  split; [exact Hu |].
  exact (proj1 (proj2 (hash_loads_inside_buffer _ 5 Hu))).
Defined.

(** The three-lane loop leaves the last 1 to 48 bytes to the strides and the
    tail: a length that is a multiple of 48 counts one chunk less than
    [len / 48]. *)
Example chunk_count_samples :
  chunk_count 48 = 0%nat /\ chunk_count 49 = 1%nat /\
  chunk_count 96 = 1%nat /\ chunk_count 97 = 2%nat.
Proof. repeat split; reflexivity. Qed.

(** C3 as stated does not hold: on 96 bytes the three-lane loop takes one
    chunk and leaves a whole 48-byte chunk to the strides; taking both full
    chunks before the fold gives another value (96 bytes ['a']:
    15468449310621647153 from the code, 2309203300885520490 otherwise). *)
Lemma hash_96_leaves_a_full_chunk :
  chunk_count 96 = 1%nat /\
  result (hash 96 (memory_of (repeat x61 96))) = Some 15468449310621647153 /\
  hash_exhausting_full_chunks (memory_of (repeat x61 96)) 96 = 2309203300885520490 /\
  result (hash 96 (memory_of (repeat x61 96)))
  <> Some (hash_exhausting_full_chunks (memory_of (repeat x61 96)) 96).
Proof.
  split; [reflexivity | split; [vm_compute; reflexivity | split]].
  - vm_compute. reflexivity.
  - intros H. vm_compute in H. discriminate H.
Qed.

(** C3, as amended: for [len > 48] the three lanes [seed], [see1], [see2]
    are advanced once per 48-byte chunk taken ([chunk48]: lane k mixes bytes
    [16k .. 16k+15] of the chunk with its own single secret, [secret 1],
    [secret 2], [secret 3], and its own running value), the loop running
    while more than 48 bytes remain, [(len - 1) / 48] times, so that 1 to 48
    bytes are left; the lanes are folded as [seed ^= see1 ^ see2]; 16-byte
    strides follow while more than 16 bytes remain; and [a], [b] are the
    words at [len - 16] and [len - 8], the last sixteen bytes of the buffer,
    before the final mix. *)
Theorem hash_over_48_bytes (mem : memory) (len : Z) :
  48 < len -> is_u64 len ->
  let n48 := Z.to_nat ((len - 1) / 48) in
  let '(seed, see1, see2) :=
    chunks48 mem n48 0 (secret 0, secret 0, secret 0) in
  let seed := seed ^% (see1 ^% see2) in
  let consumed := 48 * Z.of_nat n48 in
  let n16 := Z.to_nat ((len - consumed - 1) / 16) in
  let seed := strides16 mem n16 consumed seed in
  let a := word8 mem (len - 16) in
  let b := word8 mem (len - 8) in
  (1 <= n48)%nat /\
  0 < len - consumed <= 48 /\
  0 < len - consumed - 16 * Z.of_nat n16 <= 16 /\
  result (hash len mem) =
    Some (mix (secret 1 ^% len) (mix (a ^% secret 1) (b ^% seed))).
Proof.
  intros Hbig Hu. cbv zeta.
  pose proof (proj1 (hash_long mem len ltac:(lia) Hu)) as Hres.
  unfold long_value, long_seed, chunk_count, finish in Hres.
  rewrite (gtb_true len 48 Hbig) in Hres.
  destruct (div_count len 48 ltac:(lia) ltac:(lia)) as [Hn48 Hn48pos].
  rewrite <- (Z2Nat.id ((len - 1) / 48) Hn48pos) in Hn48.
  set (n48 := Z.to_nat ((len - 1) / 48)) in *.
  destruct (chunks48 mem n48 0 (secret 0, secret 0, secret 0))
    as [[seed see1] see2].
  assert (Hrest : 0 < len - 48 * Z.of_nat n48 <= 48) by lia.
  destruct (div_count (len - 48 * Z.of_nat n48) 16 ltac:(lia) ltac:(lia))
    as [Hn16 Hn16pos].
  rewrite <- (Z2Nat.id _ Hn16pos) in Hn16.
  repeat split; try lia. exact Hres.
Qed.

Lemma hash_over_48_bytes_witness :
  48 < 49 /\ is_u64 49 /\
  result (hash 49 (memory_of (repeat x61 49))) =
    Some (hash_value (memory_of (repeat x61 49)) 49).
Proof.
  assert (Hbig : 48 < 49) by lia.
  assert (Hu : is_u64 49) by (unfold is_u64, modulus64; lia).
  split; [exact Hbig | split; [exact Hu |]].
  pose proof (hash_over_48_bytes (memory_of (repeat x61 49)) 49 Hbig Hu) as H.
  cbv zeta in H.
  destruct (chunks48 (memory_of (repeat x61 49)) (Z.to_nat ((49 - 1) / 48)) 0
              (secret 0, secret 0, secret 0)) as [[seed see1] see2] eqn:E.
  destruct H as (_ & _ & _ & H). rewrite H.
  unfold hash_value, long_value, long_seed, chunk_count, finish.
  change (49 <=? 16) with false. change (49 >? 48) with true. cbv iota.
  rewrite E. reflexivity.
Defined.

(** C4: for [4 <= len <= 16] the working words are
    [a = (r4 at 0) << 32 | r4 at ((len >> 3) << 2)] and
    [b = (r4 at len - 4) << 32 | r4 at (len - 4 - ((len >> 3) << 2))];
    each shifted load fills the high half of its word exactly. *)
Theorem hash_4_to_16_bytes (mem : memory) (len : Z) :
  4 <= len <= 16 ->
  let stride := (len >>% 3) <<% 2 in
  let a := (word4 mem 0 <<% 32) |% word4 mem stride in
  let b := (word4 mem (len - 4) <<% 32) |% word4 mem (len - 4 - stride) in
  result (hash len mem) =
    Some (mix (secret 1 ^% len) (mix (a ^% secret 1) (b ^% secret 0))) /\
  word4 mem 0 <<% 32 = word4 mem 0 * 2 ^ 32 /\
  word4 mem (len - 4) <<% 32 = word4 mem (len - 4) * 2 ^ 32 /\
  0 <= stride <= len - 4.
Proof.
  intros Hlen. cbv zeta.
  split; [| split; [| split]].
  - exact (proj1 (hash_short mem len Hlen)).
  - apply word4_high_half.
  - apply word4_high_half.
  - apply short_stride_bounds. exact Hlen.
Qed.

Lemma hash_4_to_16_bytes_witness :
  4 <= 11 <= 16 /\
  result (hash 11 (memory_of (repeat x7a 11))) =
    Some (hash_value (memory_of (repeat x7a 11)) 11).
Proof.
  assert (Hlen : 4 <= 11 <= 16) by lia.
  split; [exact Hlen |].
  exact (proj1 (hash_4_to_16_bytes (memory_of (repeat x7a 11)) 11 Hlen)).
Defined.

(** ** Theorems about the combiner *)

Lemma hash_combine_fold (args : list hashable) :
  forall seed, hash_combine seed args = fold_left combine_step args seed.
Proof.
  induction args as [| v rest IH]; intros seed.
  - reflexivity.
  - simpl fold_left. rewrite <- IH. reflexivity.
Qed.

(** C5: [hash_combine(seed, v)] is
    [seed ^ (hash<T>(v) + 0x9e3779b9 + (seed << 6) + (seed >> 2))] in 64-bit
    arithmetic; with several values it is that step applied to them from
    left to right; with none the seed is unchanged. *)
Theorem hash_combine_left_to_right
    (seed : Z) (T : Type) (HT : Hash T) (v : T) (rest : list hashable) :
  hash_combine seed [Hashable v] =
    seed ^% (hasher v +% 0x9e3779b9 +% (seed <<% 6) +% (seed >>% 2)) /\
  hash_combine seed (Hashable v :: rest) =
    hash_combine (hash_combine seed [Hashable v]) rest /\
  hash_combine seed rest =
    fold_left (fun s x => hash_combine s [x]) rest seed /\
  hash_combine seed [] = seed.
Proof.
  split; [reflexivity | split; [reflexivity | split; [| reflexivity]]].
  apply hash_combine_fold.
Qed.

Lemma firstn_snoc_nth {A} (d : A) (l : list A) :
  forall n, (n < length l)%nat -> firstn (S n) l = firstn n l ++ [nth n l d].
Proof.
  induction l as [| x l IH]; intros n Hn; simpl in Hn.
  - lia.
  - destruct n as [| n].
    + reflexivity.
    + change (firstn (S (S n)) (x :: l)) with (x :: firstn (S n) l).
      rewrite IH by lia. reflexivity.
Qed.

(** [HashValueImpl<Tuple, Index>] folds fields [0 .. Index], lowest first. *)
Lemma HashValueImpl_apply_fold (t : tuple) (Index : nat) :
  forall seed, (Index < tuple_size t)%nat ->
  HashValueImpl_apply Index seed t =
    fold_left combine_step (firstn (S Index) (fields t)) seed.
Proof.
  induction Index as [| i IH]; intros seed Hlt.
  - reflexivity.
  - change (HashValueImpl_apply (S i) seed t)
      with (hash_combine (HashValueImpl_apply i seed t) [get (S i) t]).
    rewrite IH by lia.
    rewrite (firstn_snoc_nth (tuple_head t) (fields t) (S i)) by exact Hlt.
    rewrite fold_left_app. reflexivity.
Qed.

(** C6: the hash of a tuple is the fold of the two-argument combine over its
    fields from seed 0, field 0 first; hence a pair and the 2-tuple of the
    same two values hash alike. *)
Theorem tuple_hash_in_field_order :
  (forall t : tuple,
     hasher t = fold_left (fun seed f => hash_combine seed [f]) (fields t) 0) /\
  (forall (T U : Type) (HT : Hash T) (HU : Hash U) (a : T) (b : U),
     hasher (a, b) = hasher (Tuple (Hashable a) [Hashable b])).
Proof.
  assert (Htuple : forall t : tuple,
            hasher t = fold_left combine_step (fields t) 0).
  { intros t. unfold hasher, hash_tuple. cbv zeta.
    rewrite HashValueImpl_apply_fold by (unfold tuple_size, fields; simpl; lia).
    replace (S (tuple_size t - 1)) with (length (fields t))
      by (unfold tuple_size, fields; simpl; lia).
    rewrite firstn_all. reflexivity. }
  split; [exact Htuple |].
  intros T U HT HU a b. rewrite Htuple. reflexivity.
Qed.

(** C7: folding 1 then 2 into seed 0 differs from folding 2 then 1 (the
    values being [int]s). *)
Theorem combine_order_matters :
  hash_combine (hash_combine 0 [Hashable (Int t_int 1)]) [Hashable (Int t_int 2)]
  <> hash_combine (hash_combine 0 [Hashable (Int t_int 2)]) [Hashable (Int t_int 1)].
Proof. intros H. vm_compute in H. discriminate H. Qed.

(** *** Ordered sequences *)

Lemma hash_combine_one {T : Type} `{Hash T} (seed : Z) (v : T) :
  hash_combine seed [Hashable v] =
    seed ^% (hasher v +% 0x9e3779b9 +% (seed <<% 6) +% (seed >>% 2)).
Proof. reflexivity. Qed.

Lemma fold_combine_by_hashes {T : Type} `{Hash T} (xs ys : list T) :
  Forall2 (fun x y => hasher x = hasher y) xs ys ->
  forall seed,
    fold_left (fun seed elem => hash_combine seed [Hashable elem]) xs seed =
    fold_left (fun seed elem => hash_combine seed [Hashable elem]) ys seed.
Proof.
  induction 1 as [| x y xs ys Hxy Hall IH]; intros seed.
  - reflexivity.
  - cbn [fold_left]. rewrite !hash_combine_one, Hxy. apply IH.
Qed.

(** C8, as amended: two sequences of equal length whose elements have, position
    by position, equal hashes (equal elements in particular) have equal
    hashes.  (The converse fails: distinct sequences can collide.) *)
Theorem vector_hash_by_element_hashes {T : Type} `{Hash T} (xs ys : list T) :
  Forall2 (fun x y => hasher x = hasher y) xs ys -> hasher xs = hasher ys.
Proof.
  intros Hall. exact (fold_combine_by_hashes xs ys Hall 0).
Qed.

Lemma vector_hash_by_element_hashes_witness :
  Forall2 (fun x y => hasher x = hasher y)
          [Int t_unsigned_long_long 13676172266729088138; Int t_unsigned_long_long 7]
          [Int t_unsigned_long_long 811571679803075612; Int t_unsigned_long_long 7] /\
  hasher [Int t_unsigned_long_long 13676172266729088138; Int t_unsigned_long_long 7] =
  hasher [Int t_unsigned_long_long 811571679803075612; Int t_unsigned_long_long 7].
Proof.
  assert (Hall : Forall2 (fun x y => hasher x = hasher y)
            [Int t_unsigned_long_long 13676172266729088138; Int t_unsigned_long_long 7]
            [Int t_unsigned_long_long 811571679803075612; Int t_unsigned_long_long 7])
    by (constructor; [vm_compute; reflexivity
                     | constructor; [reflexivity | constructor]]).
  split; [exact Hall |].
  exact (vector_hash_by_element_hashes _ _ Hall).
Defined.

(** C8 as stated does not hold: two different one-element vectors of
    [unsigned long long] have the same hash. *)
Lemma vector_hash_collision :
  ~ (forall xs ys : list (integer t_unsigned_long_long),
       hasher xs = hasher ys <-> same_sequence xs ys).
Proof.
  intros Hiff.
  assert (Hcollide :
            hasher [Int t_unsigned_long_long 13676172266729088138] =
            hasher [Int t_unsigned_long_long 811571679803075612])
    by (vm_compute; reflexivity).
  apply Hiff in Hcollide. destruct Hcollide as [_ Hnth].
  specialize (Hnth O). simpl in Hnth. discriminate Hnth.
Qed.

(** ** Theorems about the dispatch *)

(** C9: a raw pointer, a [unique_ptr] and a [shared_ptr] holding the same
    pointer all hash to [hash_u64] of its address; holding null they hash to
    [hash_u64 0]. *)
Theorem pointer_hash_is_address_hash (p : pointer) (owners : nat) :
  hasher p = hash_u64 (address p) /\
  hasher (UniquePtr p) = hash_u64 (address p) /\
  hasher (SharedPtr p owners) = hash_u64 (address p) /\
  hasher nullptr = hash_u64 0 /\
  hasher (UniquePtr nullptr) = hash_u64 0 /\
  hasher (SharedPtr nullptr owners) = hash_u64 0.
Proof. repeat split; reflexivity. Qed.

Lemma sign_bits (n v k : Z) :
  0 <= n -> - 2 ^ n <= v < 2 ^ n -> n <= k ->
  Z.testbit v k = (v <? 0).
Proof.
  intros Hn Hv Hk.
  assert (Hpow : 2 ^ n <= 2 ^ k) by (apply Z.pow_le_mono_r; lia).
  destruct (Z.ltb_spec v 0) as [Hneg | Hpos].
  - destruct (Z.eq_dec v (-1)) as [-> | Hnz]; [apply Z.bits_m1; lia |].
    apply Z.bits_above_log2_neg; [exact Hneg |].
    apply Z.log2_lt_pow2; lia.
  - destruct (Z.eq_dec v 0) as [-> | Hnz]; [apply Z.bits_0 |].
    apply Z.bits_above_log2; [exact Hpos |].
    apply Z.log2_lt_pow2; lia.
Qed.

Lemma width_bounds (T : integral) : 8 <= width T <= 64.
Proof. destruct T; simpl; lia. Qed.

Lemma signed_range_64 (T : integral) (v : Z) :
  is_signed T = true -> in_range T v -> - 2 ^ 63 <= v < 2 ^ 63.
Proof.
  unfold in_range. intros Hs. rewrite Hs. intros Hv.
  pose proof (width_bounds T) as Hw.
  assert (Hpow : 2 ^ (width T - 1) <= 2 ^ 63) by (apply Z.pow_le_mono_r; lia).
  lia.
Qed.




(** ** The exact trace of [hash] *)

Section Traces.

Variable mem : memory.

Lemma offsets_app (n m : nat) :
  forall o, offsets o (n + m) = offsets o n ++ offsets (o + Z.of_nat n) m.
Proof.
  induction n as [| k IH]; intros o.
  - simpl. rewrite Z.add_0_r. reflexivity.
  - change (offsets o (S k + m)) with (o :: offsets (o + 1) (k + m)).
    rewrite IH. change (offsets o (S k)) with (o :: offsets (o + 1) k).
    rewrite <- app_comm_cons. do 3 f_equal. lia.
Qed.

Lemma offsets_length (n : nat) : forall o, length (offsets o n) = n.
Proof. induction n as [| k IH]; intros o; simpl; [| rewrite IH]; reflexivity. Qed.

Lemma in_offsets (n : nat) :
  forall o x, In x (offsets o n) <-> o <= x < o + Z.of_nat n.
Proof.
  induction n as [| k IH]; intros o x.
  - simpl. lia.
  - change (offsets o (S k)) with (o :: offsets (o + 1) k).
    simpl In. rewrite IH. lia.
Qed.

Lemma runs_ret {A} (a : A) : runs mem (ret a) a [].
Proof. reflexivity. Qed.

Lemma runs_bind {A B} (m : Load A) (f : A -> Load B) a b l1 l2 :
  runs mem m a l1 -> runs mem (f a) b l2 -> runs mem (bind m f) b (l1 ++ l2).
Proof.
  unfold runs, bind. intros Hm Hf. rewrite Hm, Hf. reflexivity.
Qed.

Lemma runs_trace {A} (m : Load A) v l l' :
  runs mem m v l -> l = l' -> runs mem m v l'.
Proof. intros H <-. exact H. Qed.

Lemma runs_byte_at (o : Z) : runs mem (byte_at o) (byte_value mem o) [o].
Proof. reflexivity. Qed.

Lemma runs_memcpy_le (n : nat) :
  forall o, runs mem (memcpy_le n o) (word_le mem n o) (offsets o n).
Proof.
  induction n as [| k IH]; intros o.
  - apply runs_ret.
  - simpl memcpy_le. simpl word_le.
    eapply runs_trace.
    + eapply runs_bind; [apply runs_byte_at |].
      eapply runs_bind; [apply IH | apply runs_ret].
    + rewrite app_nil_r. reflexivity.
Qed.

Lemma runs_r8 (p : Z) : runs mem (r8 p) (word8 mem p) (offsets p 8).
Proof. apply runs_memcpy_le. Qed.

Lemma runs_r4 (p : Z) : runs mem (r4 p) (word4 mem p) (offsets p 4).
Proof. apply runs_memcpy_le. Qed.

Lemma runs_r3 (p k : Z) :
  runs mem (r3 p k) (word3 mem p k) [p + 0; p + (k >>% 1); p + (k -% 1)].
Proof. reflexivity. Qed.

(** Two adjacent words are sixteen consecutive bytes. *)
Lemma offsets_16 (p : Z) : offsets p 8 ++ offsets (p + 8) 8 = offsets p 16.
Proof. exact (eq_sym (offsets_app 8 8 p)). Qed.

Lemma runs_while16 (n : nat) :
  forall fuel seed p i,
    16 * Z.of_nat n < i <= 16 * Z.of_nat n + 16 ->
    (n <= fuel)%nat -> is_u64 i ->
    runs mem (while16 fuel seed p i)
         (strides16 mem n p seed, p + 16 * Z.of_nat n, i - 16 * Z.of_nat n)
         (offsets p (16 * n)).
Proof.
  induction n as [| k IH]; intros fuel seed p i Hi Hfuel Hu.
  - assert (E : (i >? 16) = false) by (apply gtb_false; lia).
    destruct fuel; simpl while16; rewrite E; simpl strides16;
      replace (p + 16 * Z.of_nat 0) with p by lia;
      replace (i - 16 * Z.of_nat 0) with i by lia; apply runs_ret.
  - assert (E : (i >? 16) = true) by (apply gtb_true; lia).
    destruct fuel as [| fuel]; [lia |].
    simpl while16. rewrite E.
    rewrite sub64_exact by (assumption || lia).
    replace (p + 16 * Z.of_nat (S k)) with ((p + 16) + 16 * Z.of_nat k) by lia.
    replace (i - 16 * Z.of_nat (S k)) with ((i - 16) - 16 * Z.of_nat k) by lia.
    eapply runs_trace.
    + eapply runs_bind; [apply runs_r8 |].
      eapply runs_bind; [apply runs_r8 |].
      simpl strides16. apply IH; unfold is_u64 in *; lia.
    + rewrite app_assoc, offsets_16.
      replace (16 * S k)%nat with (16 + 16 * k)%nat by lia.
      rewrite (offsets_app 16 (16 * k) p). reflexivity.
Qed.

Lemma offsets_48 (p : Z) :
  offsets p 8 ++ offsets (p + 8) 8 ++ offsets (p + 16) 8 ++
  offsets (p + 24) 8 ++ offsets (p + 32) 8 ++ offsets (p + 40) 8 = offsets p 48.
Proof.
  change 48%nat with (8 + (8 + (8 + (8 + (8 + 8)))))%nat.
  rewrite !offsets_app. change (Z.of_nat 8) with 8.
  repeat (f_equal; try lia).
Qed.

Lemma runs_do_while48 (n : nat) :
  forall fuel seed see1 see2 p i,
    48 * Z.of_nat (S n) < i <= 48 * Z.of_nat (S n) + 48 ->
    (S n <= fuel)%nat -> is_u64 i ->
    runs mem (do_while48 fuel seed see1 see2 p i)
         (chunks48 mem (S n) p (seed, see1, see2),
          p + 48 * Z.of_nat (S n), i - 48 * Z.of_nat (S n))
         (offsets p (48 * S n)).
Proof.
  induction n as [| k IH]; intros fuel seed see1 see2 p i Hi Hfuel Hu;
    (destruct fuel as [| fuel]; [lia |]); simpl do_while48;
    rewrite sub64_exact by (assumption || lia).
  - assert (E : (i - 48 >? 48) = false) by (apply gtb_false; lia).
    rewrite E. change (48 * Z.of_nat 1) with 48.
    eapply runs_trace.
    + do 6 (eapply runs_bind; [apply runs_r8 |]). apply runs_ret.
    + rewrite app_nil_r. apply offsets_48.
  - assert (E : (i - 48 >? 48) = true) by (apply gtb_true; lia).
    rewrite E.
    replace (p + 48 * Z.of_nat (S (S k))) with ((p + 48) + 48 * Z.of_nat (S k)) by lia.
    replace (i - 48 * Z.of_nat (S (S k))) with ((i - 48) - 48 * Z.of_nat (S k)) by lia.
    change (chunks48 mem (S (S k)) p (seed, see1, see2))
      with (chunks48 mem (S k) (p + 48) (chunk48 mem p (seed, see1, see2))).
    eapply runs_trace.
    + do 6 (eapply runs_bind; [apply runs_r8 |]).
      apply IH; unfold is_u64 in *; lia.
    + replace (48 * S (S k))%nat with (48 + 48 * S k)%nat by lia.
      rewrite (offsets_app 48 (48 * S k) p), <- offsets_48.
      rewrite <- !app_assoc. reflexivity.
Qed.

End Traces.

Section HashTrace.

Variable mem : memory.

Lemma short_stride_value (len : Z) :
  4 <= len <= 16 ->
  (len >>% 3) <<% 2 = 4 * (len / 8) /\ 8 * (len / 8) <= len < 8 * (len / 8) + 8.
Proof.
  intros Hlen. unfold shl64, to_u64.
  rewrite shr64_div, Z.shiftl_mul_pow2 by lia.
  change (2 ^ 3) with 8. change (2 ^ 2) with 4.
  pose proof (Z.mul_div_le len 8 ltac:(lia)) as Hq.
  pose proof (Z.mul_succ_div_gt len 8 ltac:(lia)) as Hq'.
  assert (Hq0 : 0 <= len / 8) by (apply Z.div_pos; lia).
  assert (Hq2 : len / 8 <= 2) by (apply Z.div_le_upper_bound; lia).
  rewrite Z.mod_small by (unfold modulus64; lia). lia.
Qed.

(** How far the loops of the long branch get: [consumed] bytes, leaving
    between 1 and 16. *)
Lemma long_progress (len : Z) :
  16 < len ->
  let consumed := 48 * Z.of_nat (chunk_count len) + 16 * Z.of_nat (stride_count len) in
  0 < len - consumed <= 16.
Proof.
  intros Hlen. cbv zeta. unfold stride_count, chunk_count.
  destruct (Z.gtb_spec len 48) as [Hbig | Hsmall].
  - destruct (div_count len 48 ltac:(lia) ltac:(lia)) as [Hn48 Hn48pos].
    rewrite Z2Nat.id by exact Hn48pos.
    destruct (div_count (len - 48 * ((len - 1) / 48)) 16 ltac:(lia) ltac:(lia))
      as [Hn16 Hn16pos].
    rewrite Z2Nat.id by exact Hn16pos. lia.
  - change (48 * Z.of_nat 0) with 0. replace (len - 0 - 1) with (len - 1) by lia.
    destruct (div_count len 16 ltac:(lia) ltac:(lia)) as [Hn16 Hn16pos].
    rewrite Z2Nat.id by exact Hn16pos. lia.
Qed.

Lemma hash_runs_long (len : Z) :
  16 < len -> is_u64 len ->
  runs mem (hash len) (long_value mem len)
       (offsets 0 (48 * chunk_count len + 16 * stride_count len)
        ++ offsets (len - 16) 16).
Proof.
  intros Hlen Hu. unfold hash. cbv zeta.
  replace (len <=? 16) with false by (symmetry; apply Z.leb_gt; lia).
  unfold long_value, long_seed, stride_count, chunk_count.
  destruct (Z.gtb_spec len 48) as [Hbig | Hsmall].
  - destruct (div_count len 48 ltac:(lia) ltac:(lia)) as [Hn48 Hn48pos].
    remember (Z.to_nat ((len - 1) / 48)) as n48 eqn:En48.
    assert (Hof : Z.of_nat n48 = (len - 1) / 48) by (subst n48; apply Z2Nat.id; lia).
    rewrite <- Hof in Hn48.
    destruct n48 as [| m]; [simpl in Hn48; lia |].
    assert (Hloop : runs mem
              (do_while48 (Z.to_nat len) (secret 0) (secret 0) (secret 0) 0 len)
              (chunks48 mem (S m) 0 (secret 0, secret 0, secret 0),
               0 + 48 * Z.of_nat (S m), len - 48 * Z.of_nat (S m))
              (offsets 0 (48 * S m)))
      by (apply runs_do_while48; (assumption || lia)).
    destruct (chunks48 mem (S m) 0 (secret 0, secret 0, secret 0))
      as [[seed see1] see2].
    set (done := 48 * Z.of_nat (S m)) in *.
    replace (0 + done) with done in Hloop by lia.
    assert (Hrest : 0 < len - done <= 48) by lia.
    destruct (div_count (len - done) 16 ltac:(lia) ltac:(lia)) as [Hn16 Hn16pos].
    remember (Z.to_nat ((len - done - 1) / 16)) as n16 eqn:En16.
    assert (Hof16 : Z.of_nat n16 = (len - done - 1) / 16)
      by (subst n16; apply Z2Nat.id; lia).
    rewrite <- Hof16 in Hn16.
    eapply runs_trace.
    + eapply runs_bind.
      { eapply runs_bind.
        { eapply runs_bind; [exact Hloop |]. cbv beta iota. apply runs_ret. }
        cbv beta iota.
        eapply runs_bind.
        { apply (runs_while16 mem n16); try lia. unfold is_u64 in *; lia. }
        cbv beta iota.
        replace (done + 16 * Z.of_nat n16 + (len - done - 16 * Z.of_nat n16) - 16)
          with (len - 16) by lia.
        replace (done + 16 * Z.of_nat n16 + (len - done - 16 * Z.of_nat n16) - 8)
          with (len - 8) by lia.
        eapply runs_bind; [apply runs_r8 |].
        eapply runs_bind; [apply runs_r8 |]. apply runs_ret. }
      cbv beta iota. apply runs_ret.
    + rewrite !app_nil_r.
      rewrite offsets_app. rewrite <- !app_assoc.
      replace (len - 8) with (len - 16 + 8) by lia. rewrite offsets_16.
      replace (0 + Z.of_nat (48 * S m)) with done
        by (subst done; rewrite Nat2Z.inj_mul; reflexivity).
      reflexivity.
  - change (48 * Z.of_nat 0) with 0.
    replace (len - 0 - 1) with (len - 1) by lia.
    destruct (div_count len 16 ltac:(lia) ltac:(lia)) as [Hn16 Hn16pos].
    remember (Z.to_nat ((len - 1) / 16)) as n16 eqn:En16.
    assert (Hof16 : Z.of_nat n16 = (len - 1) / 16)
      by (subst n16; apply Z2Nat.id; lia).
    rewrite <- Hof16 in Hn16.
    eapply runs_trace.
    + eapply runs_bind.
      { eapply runs_bind; [apply runs_ret |]. cbv beta iota.
        eapply runs_bind.
        { apply (runs_while16 mem n16); (assumption || lia). }
        cbv beta iota.
        replace (0 + 16 * Z.of_nat n16 + (len - 16 * Z.of_nat n16) - 16)
          with (len - 16) by lia.
        replace (0 + 16 * Z.of_nat n16 + (len - 16 * Z.of_nat n16) - 8)
          with (len - 8) by lia.
        eapply runs_bind; [apply runs_r8 |].
        eapply runs_bind; [apply runs_r8 |]. apply runs_ret. }
      cbv beta iota. apply runs_ret.
    + rewrite !app_nil_r.
      change (48 * 0 + 16 * n16)%nat with (16 * n16)%nat.
      change ([] ++ offsets 0 (16 * n16) ++ offsets (len - 16) 8 ++ offsets (len - 8) 8)
        with (offsets 0 (16 * n16) ++ offsets (len - 16) 8 ++ offsets (len - 8) 8).
      replace (len - 8) with (len - 16 + 8) by lia.
      rewrite offsets_16. reflexivity.
Qed.

End HashTrace.

Section HashRuns.

Variable mem : memory.

Lemma hash_runs_short (len : Z) :
  4 <= len <= 16 ->
  runs mem (hash len)
       (finish len (short_a mem len) (short_b mem len) (secret 0))
       (let stride := (len >>% 3) <<% 2 in
        offsets 0 4 ++ offsets stride 4 ++
        offsets (len - 4) 4 ++ offsets (len - 4 - stride) 4).
Proof.
  intros Hlen. unfold hash. cbv zeta.
  replace (len <=? 16) with true by (symmetry; apply Z.leb_le; lia).
  replace (len >=? 4) with true by (symmetry; rewrite Z.geb_leb; apply Z.leb_le; lia).
  eapply runs_trace.
  - eapply runs_bind.
    { do 4 (eapply runs_bind; [apply runs_r4 |]). apply runs_ret. }
    cbv beta iota. apply runs_ret.
  - rewrite !app_nil_r. reflexivity.
Qed.

Lemma hash_runs_tiny (len : Z) :
  0 < len < 4 ->
  runs mem (hash len) (finish len (word3 mem 0 len) 0 (secret 0))
       [0; len >>% 1; len -% 1].
Proof.
  intros Hlen. unfold hash. cbv zeta.
  replace (len <=? 16) with true by (symmetry; apply Z.leb_le; lia).
  replace (len >=? 4) with false by (symmetry; rewrite Z.geb_leb; apply Z.leb_gt; lia).
  rewrite gtb_true by lia.
  eapply runs_trace.
  - eapply runs_bind.
    { eapply runs_bind; [apply runs_r3 | apply runs_ret]. }
    cbv beta iota. apply runs_ret.
  - reflexivity.
Qed.

(** The whole outcome of a call: the value and the loads, the latter a
    function of [len] alone. *)
Lemma hash_runs (len : Z) :
  is_u64 len -> runs mem (hash len) (hash_value mem len) (hash_loads len).
Proof.
  intros Hu. unfold hash_value, hash_loads.
  destruct (Z.leb_spec len 16) as [Hle | Hgt].
  - destruct (Z_le_gt_dec 4 len) as [H4 | H4].
    + replace (len >=? 4) with true
        by (symmetry; rewrite Z.geb_leb; apply Z.leb_le; lia).
      apply hash_runs_short; lia.
    + replace (len >=? 4) with false
        by (symmetry; rewrite Z.geb_leb; apply Z.leb_gt; lia).
      destruct (Z.gtb_spec len 0) as [Hpos | Hzero].
      * apply hash_runs_tiny; lia.
      * assert (len = 0) by (unfold is_u64 in Hu; lia). subst len.
        reflexivity.
  - apply hash_runs_long; assumption.
Qed.

Lemma hash_loads_cover (len : Z) :
  is_u64 len -> forall o, 0 <= o < len -> In o (hash_loads len).
Proof.
  intros Hu o Ho. unfold hash_loads.
  destruct (Z.leb_spec len 16) as [Hle | Hgt].
  - destruct (Z_le_gt_dec 4 len) as [H4 | H4].
    + replace (len >=? 4) with true
        by (symmetry; rewrite Z.geb_leb; apply Z.leb_le; lia).
      cbv zeta.
      destruct (short_stride_value len ltac:(lia)) as [-> Hq].
      rewrite !in_app_iff, !in_offsets. change (Z.of_nat 4) with 4. lia.
    + replace (len >=? 4) with false
        by (symmetry; rewrite Z.geb_leb; apply Z.leb_gt; lia).
      rewrite gtb_true by lia.
      assert (Hcases : len = 1 \/ len = 2 \/ len = 3) by lia.
      destruct Hcases as [-> | [-> | ->]]; vm_compute; lia.
  - pose proof (long_progress len Hgt) as Hprog. cbv zeta in Hprog.
    rewrite in_app_iff, !in_offsets.
    rewrite Nat2Z.inj_add, !Nat2Z.inj_mul.
    change (Z.of_nat 48) with 48. change (Z.of_nat 16) with 16. lia.
Qed.

Lemma hash_loads_length (len : Z) :
  is_u64 len ->
  len <= Z.of_nat (length (hash_loads len)) <= len + 15.
Proof.
  intros Hu. unfold hash_loads.
  destruct (Z.leb_spec len 16) as [Hle | Hgt].
  - destruct (Z_le_gt_dec 4 len) as [H4 | H4].
    + replace (len >=? 4) with true
        by (symmetry; rewrite Z.geb_leb; apply Z.leb_le; lia).
      cbv zeta. rewrite !length_app, !offsets_length. lia.
    + replace (len >=? 4) with false
        by (symmetry; rewrite Z.geb_leb; apply Z.leb_gt; lia).
      destruct (Z.gtb_spec len 0) as [Hpos | Hzero]; simpl length.
      * lia.
      * unfold is_u64 in Hu. lia.
  - pose proof (long_progress len Hgt) as Hprog. cbv zeta in Hprog.
    rewrite length_app, !offsets_length.
    rewrite !Nat2Z.inj_add, !Nat2Z.inj_mul.
    change (Z.of_nat 48) with 48. change (Z.of_nat 16) with 16. lia.
Qed.

End HashRuns.

(** X1: which offsets a call loads, and how often each, is a function of
    [len] alone: the loads of any call are those of [hash_loads len] up to
    order, so two calls with the same [len] load the same offsets the same
    number of times whatever bytes they find; the value is [hash_value]. *)
Theorem hash_access_pattern (mem mem' : memory) (len : Z) :
  is_u64 len ->
  result (hash len mem) = Some (hash_value mem len) /\
  Permutation (loads (hash len mem)) (hash_loads len) /\
  Permutation (loads (hash len mem')) (loads (hash len mem)).
Proof.
  intros Hu. pose proof (hash_runs mem len Hu) as H.
  pose proof (hash_runs mem' len Hu) as H'. unfold runs in *.
  rewrite H, H'. simpl.
  split; [reflexivity | split; apply Permutation_refl].
Qed.

Lemma hash_access_pattern_witness :
  is_u64 20 /\
  Permutation (loads (hash 20 (memory_of (repeat x41 20))))
              (loads (hash 20 (memory_of (repeat x00 20)))).
Proof.
  assert (Hu : is_u64 20) by (unfold is_u64, modulus64; lia).
  split; [exact Hu |].
  exact (proj2 (proj2 (hash_access_pattern (memory_of (repeat x00 20))
                         (memory_of (repeat x41 20)) 20 Hu))).
Defined.

(** X2: no byte of the buffer is skipped: every offset in [0, len) is loaded
    at least once. *)
Theorem hash_loads_every_byte (mem : memory) (len : Z) :
  is_u64 len ->
  forall o, 0 <= o < len -> In o (loads (hash len mem)).
Proof.
  intros Hu o Ho. pose proof (hash_runs mem len Hu) as H. unfold runs in H.
  rewrite H. simpl loads. apply hash_loads_cover; assumption.
Qed.

Lemma hash_loads_every_byte_witness :
  is_u64 7 /\ (0 <= 6 < 7) /\ In 6 (loads (hash 7 (memory_of (repeat x41 7)))).
Proof.
  assert (Hu : is_u64 7) by (unfold is_u64, modulus64; lia).
  assert (Ho : 0 <= 6 < 7) by lia.
  split; [exact Hu | split; [exact Ho |]].
  exact (hash_loads_every_byte _ 7 Hu 6 Ho).
Defined.

(** X3: the number of single-byte loads is linear in [len]: at least [len]
    and at most [len + 15]. *)
Theorem hash_load_count (mem : memory) (len : Z) :
  is_u64 len ->
  len <= Z.of_nat (length (loads (hash len mem))) <= len + 15.
Proof.
  intros Hu. pose proof (hash_runs mem len Hu) as H. unfold runs in H.
  rewrite H. simpl loads. apply hash_loads_length. exact Hu.
Qed.

Lemma hash_load_count_witness :
  is_u64 100 /\
  100 <= Z.of_nat (length (loads (hash 100 (memory_of (repeat x41 100))))) <= 115.
Proof.
  assert (Hu : is_u64 100) by (unfold is_u64, modulus64; lia).
  split; [exact Hu |].
  exact (hash_load_count _ 100 Hu).
Defined.

(** ** The remaining branches of [hash] *)

(** X4: for [16 < len <= 48] only the 16-byte strides run, from the fixed
    seed [secret 0]: one stride over bytes [0 .. 15] up to 32 bytes, a second
    one over bytes [16 .. 31] beyond; [a] and [b] are again the last two
    words of the buffer. *)
Theorem hash_17_to_48_bytes (mem : memory) (len : Z) :
  16 < len <= 48 ->
  let seed1 := mix (word8 mem 0 ^% secret 1) (word8 mem 8 ^% secret 0) in
  let seed2 := mix (word8 mem 16 ^% secret 1) (word8 mem 24 ^% seed1) in
  let seed := if len <=? 32 then seed1 else seed2 in
  let a := word8 mem (len - 16) in
  let b := word8 mem (len - 8) in
  result (hash len mem) =
    Some (mix (secret 1 ^% len) (mix (a ^% secret 1) (b ^% seed))).
Proof.
  intros Hlen. cbv zeta.
  assert (Hu : is_u64 len) by (unfold is_u64, modulus64; lia).
  rewrite (proj1 (hash_long mem len ltac:(lia) Hu)).
  unfold long_value, long_seed, chunk_count, finish.
  rewrite (gtb_false len 48) by lia.
  change (48 * Z.of_nat 0) with 0. replace (len - 0 - 1) with (len - 1) by lia.
  destruct (Z.leb_spec len 32) as [H32 | H32].
  - replace ((len - 1) / 16) with 1
      by (apply Z.div_unique with (r := len - 17); lia).
    reflexivity.
  - replace ((len - 1) / 16) with 2
      by (apply Z.div_unique with (r := len - 33); lia).
    reflexivity.
Qed.

Lemma hash_17_to_48_bytes_witness :
  16 < 40 <= 48 /\
  result (hash 40 (memory_of (repeat x41 40))) =
    Some (hash_value (memory_of (repeat x41 40)) 40).
Proof.
  assert (Hlen : 16 < 40 <= 48) by lia.
  split; [exact Hlen |].
  rewrite (hash_17_to_48_bytes (memory_of (repeat x41 40)) 40 Hlen).
  reflexivity.
Defined.

Lemma land_shifted_low (x y k : Z) :
  0 <= k -> 0 <= x < 2 ^ k -> Z.land (y * 2 ^ k) x = 0.
Proof.
  intros Hk Hx. apply Z.bits_inj'. intros n Hn.
  rewrite Z.land_spec, Z.bits_0.
  destruct (Z_lt_le_dec n k) as [Hlow | Hhigh].
  - rewrite Z.mul_pow2_bits_low by lia. reflexivity.
  - rewrite (sign_bits k x n) by lia.
    replace (x <? 0) with false by (symmetry; apply Z.ltb_ge; lia).
    apply andb_false_r.
Qed.

Lemma lor_shifted_low (x y k : Z) :
  0 <= k -> 0 <= x < 2 ^ k -> Z.lor (y * 2 ^ k) x = y * 2 ^ k + x.
Proof.
  intros Hk Hx.
  pose proof (Z.add_lor_land (y * 2 ^ k) x) as H.
  rewrite land_shifted_low in H by assumption. lia.
Qed.

Lemma word3_packed (mem : memory) (len : Z) :
  0 < len < 4 ->
  word3 mem 0 len =
    byte_value mem 0 * 65536 + byte_value mem (len / 2) * 256
    + byte_value mem (len - 1).
Proof.
  intros Hlen. unfold word3.
  destruct (tiny_offsets len Hlen) as [_ Hlast]. rewrite Hlast.
  rewrite shr64_div by lia. change (2 ^ 1) with 2.
  rewrite !Z.add_0_l.
  pose proof (byte_value_range mem 0) as H0.
  pose proof (byte_value_range mem (len / 2)) as H1.
  pose proof (byte_value_range mem (len - 1)) as H2.
  set (b0 := byte_value mem 0) in *.
  set (b1 := byte_value mem (len / 2)) in *.
  set (b2 := byte_value mem (len - 1)) in *.
  unfold or64, shl64, to_u64.
  rewrite !Z.shiftl_mul_pow2 by lia.
  rewrite !Z.mod_small by (unfold modulus64; lia).
  rewrite (lor_shifted_low (b1 * 2 ^ 8) b0 16) by lia.
  replace (b0 * 2 ^ 16 + b1 * 2 ^ 8) with ((b0 * 2 ^ 8 + b1) * 2 ^ 8) by lia.
  rewrite (lor_shifted_low b2 (b0 * 2 ^ 8 + b1) 8) by lia.
  lia.
Qed.

(** X5: for [1 <= len <= 3] the call loads exactly the bytes at [0],
    [len / 2] and [len - 1] and hashes them as the 24-bit number
    [byte 0 * 65536 + byte (len / 2) * 256 + byte (len - 1)], with [b = 0]. *)
Theorem hash_1_to_3_bytes (mem : memory) (len : Z) :
  0 < len < 4 ->
  let a := byte_value mem 0 * 65536 + byte_value mem (len / 2) * 256
           + byte_value mem (len - 1) in
  hash len mem =
    Outcome (Some (mix (secret 1 ^% len) (mix (a ^% secret 1) (0 ^% secret 0))))
            [0; len / 2; len - 1].
Proof.
  intros Hlen. cbv zeta.
  pose proof (hash_runs_tiny mem len Hlen) as H. unfold runs in H.
  rewrite H. unfold finish. rewrite word3_packed by exact Hlen.
  destruct (tiny_offsets len Hlen) as [_ Hlast]. rewrite Hlast.
  rewrite shr64_div by lia. reflexivity.
Qed.

Lemma hash_1_to_3_bytes_witness :
  0 < 2 < 4 /\
  loads (hash 2 (memory_of [x68; x69])) = [0; 1; 1].
Proof.
  assert (Hlen : 0 < 2 < 4) by lia.
  split; [exact Hlen |].
  rewrite (hash_1_to_3_bytes (memory_of [x68; x69]) 2 Hlen). reflexivity.
Defined.

(** ** The loads as numbers *)

Lemma word_le_byte (mem : memory) (n : nat) :
  forall o (k : nat), (k < n)%nat ->
  (word_le mem n o / 256 ^ Z.of_nat k) mod 256 = byte_value mem (o + Z.of_nat k).
Proof.
  induction n as [| m IH]; intros o k Hk; [lia |].
  change (word_le mem (S m) o)
    with (byte_value mem o + 256 * word_le mem m (o + 1)).
  pose proof (byte_value_range mem o) as Hb.
  destruct k as [| k].
  - change (256 ^ Z.of_nat 0) with 1. rewrite Z.div_1_r, Z.add_0_r.
    rewrite Z.mul_comm, Z_mod_plus_full. apply Z.mod_small. exact Hb.
  - rewrite Nat2Z.inj_succ, Z.pow_succ_r by lia.
    rewrite <- Z.div_div by lia.
    rewrite (Z.mul_comm 256 (word_le mem m (o + 1))), Z.div_add by lia.
    rewrite (Z.div_small (byte_value mem o) 256) by exact Hb.
    rewrite Z.add_0_l, IH by lia. f_equal. lia.
Qed.

(** X6: [r8] and [r4] load 8, respectively 4, consecutive bytes and return
    them as one little-endian number: byte [k] of the buffer is digit [k] in
    base 256 of the result, which is below [2 ^ 64], respectively [2 ^ 32]. *)
Theorem r8_r4_little_endian (mem : memory) (p k : Z) :
  0 <= k < 8 ->
  r8 p mem = Outcome (Some (word8 mem p)) (offsets p 8) /\
  r4 p mem = Outcome (Some (word4 mem p)) (offsets p 4) /\
  0 <= word8 mem p < 2 ^ 64 /\
  0 <= word4 mem p < 2 ^ 32 /\
  (word8 mem p / 256 ^ k) mod 256 = byte_value mem (p + k) /\
  (k < 4 -> (word4 mem p / 256 ^ k) mod 256 = byte_value mem (p + k)).
Proof.
  intros Hk.
  assert (Ek : k = Z.of_nat (Z.to_nat k)) by (symmetry; apply Z2Nat.id; lia).
  split; [apply runs_r8 | split; [apply runs_r4 |]].
  split; [apply (word_le_range mem 8 p) | split; [apply word4_range |]].
  split.
  - rewrite Ek. apply word_le_byte. lia.
  - intros Hk4. rewrite Ek. apply word_le_byte. lia.
Qed.

Lemma r8_r4_little_endian_witness :
  0 <= 1 < 8 /\
  (word8 (memory_of [x01; x02; x03; x04; x05; x06; x07; x08]) 0 / 256 ^ 1) mod 256 = 2.
Proof.
  assert (Hk : 0 <= 1 < 8) by lia.
  split; [exact Hk |].
  rewrite (proj1 (proj2 (proj2 (proj2 (proj2
             (r8_r4_little_endian (memory_of [x01; x02; x03; x04; x05; x06; x07; x08])
                                  0 1 Hk)))))).
  reflexivity.
Defined.

(** ** The mixer *)

(** X7: [mix] is symmetric in its arguments and is 0 as soon as one argument
    is 0; so [hash(uint64_t)] sends 0 to 0, and with it the integer 0 of
    every integral type and the null pointer. *)
Theorem mix_symmetric_and_zero (a b : Z) (T : integral) :
  mix a b = mix b a /\
  mix 0 b = 0 /\
  mix a 0 = 0 /\
  hasher (Int T 0) = 0 /\
  hasher nullptr = 0.
Proof.
  assert (Hsym : forall x y, mix x y = mix y x).
  { intros x y. unfold mix, mix_on, mum_on, mum_int128, to_u128.
    rewrite (Z.mul_mod_idemp_l x y), (Z.mul_mod_idemp_l y x) by discriminate.
    rewrite (Z.mul_comm x y). reflexivity. }
  assert (Hzero : forall y, mix 0 y = 0) by reflexivity.
  split; [apply Hsym | split; [apply Hzero | split]].
  - rewrite Hsym. apply Hzero.
  - split; reflexivity.
Qed.

(** ** Integral types *)

Lemma in_range_bounds (T : integral) (v : Z) :
  in_range T v ->
  if is_signed T then - 2 ^ 63 <= v < 2 ^ 63 else 0 <= v < 2 ^ 64.
Proof.
  intros Hv. destruct (is_signed T) eqn:Hs.
  - apply (signed_range_64 T v Hs Hv).
  - unfold in_range in Hv. rewrite Hs in Hv.
    pose proof (width_bounds T) as Hw.
    assert (Hpow : 2 ^ width T <= 2 ^ 64) by (apply Z.pow_le_mono_r; lia).
    destruct T; simpl in *; lia.
Qed.

(** X8: within one integral type the conversion to [uint64_t] loses nothing:
    two values of the type that convert to the same word are equal; and a
    non-negative value converts to itself, so it hashes as [hash_u64] of its
    value whatever its type. *)
Theorem static_cast_uint64_injective (T : integral) (v w : Z) :
  in_range T v -> in_range T w ->
  (static_cast_uint64 v = static_cast_uint64 w -> v = w) /\
  (0 <= v -> hasher (Int T v) = hash_u64 v).
Proof.
  intros Hv Hw.
  pose proof (in_range_bounds T v Hv) as Bv.
  pose proof (in_range_bounds T w Hw) as Bw.
  unfold static_cast_uint64, to_u64, modulus64. split.
  - intros E.
    pose proof (Z.div_mod v (2 ^ 64) ltac:(lia)) as Dv.
    pose proof (Z.div_mod w (2 ^ 64) ltac:(lia)) as Dw.
    pose proof (Z.mod_pos_bound w (2 ^ 64) ltac:(lia)) as Rw.
    rewrite E in Dv.
    destruct (is_signed T); lia.
  - intros Hpos. unfold hasher, hash_integral, SLANG_HASH_STATICCAST.
    simpl int_value. unfold static_cast_uint64, to_u64, modulus64.
    rewrite Z.mod_small; [reflexivity |].
    destruct (is_signed T); lia.
Qed.

Lemma static_cast_uint64_injective_witness :
  in_range t_signed_char (-3) /\ in_range t_signed_char 5 /\
  hasher (Int t_signed_char 5) = hash_u64 5.
Proof.
  assert (Hv : in_range t_signed_char 5) by (unfold in_range; simpl; lia).
  assert (Hw : in_range t_signed_char (-3)) by (unfold in_range; simpl; lia).
  split; [exact Hw | split; [exact Hv |]].
  exact (proj2 (static_cast_uint64_injective t_signed_char 5 (-3) Hv Hw) ltac:(lia)).
Defined.

(** ** The combiner and the aggregates *)

Lemma hash_combine_is_u64 (args : list hashable) :
  forall seed, is_u64 seed -> is_u64 (hash_combine seed args).
Proof.
  induction args as [| v rest IH]; intros seed Hseed.
  - exact Hseed.
  - simpl hash_combine. apply IH.
    apply lxor_is_u64; [exact Hseed | apply add64_range].
Qed.

(** X9: a variadic call can be split anywhere: combining [xs ++ ys] in one
    call gives the same seed as combining [xs] and then [ys] in two calls. *)
Theorem hash_combine_split (seed : Z) (xs ys : list hashable) :
  hash_combine seed (xs ++ ys) = hash_combine (hash_combine seed xs) ys.
Proof.
  revert seed. induction xs as [| x xs IH]; intros seed.
  - reflexivity.
  - change (hash_combine seed ((x :: xs) ++ ys))
      with (hash_combine (hash_combine seed [x]) (xs ++ ys)).
    rewrite IH. reflexivity.
Qed.

(** X10: [hash_combine] keeps a 64-bit seed within 64 bits whatever the
    hashers of its arguments return. *)
Theorem hash_combine_keeps_u64 (seed : Z) (args : list hashable) :
  is_u64 seed -> is_u64 (hash_combine seed args).
Proof.
  revert seed. induction args as [| v rest IH]; intros seed Hseed.
  - exact Hseed.
  - change (hash_combine seed (v :: rest))
      with (hash_combine (hash_combine seed [v]) rest).
    apply IH. simpl hash_combine.
    apply lxor_is_u64; [exact Hseed | apply add64_range].
Qed.

Lemma hash_combine_keeps_u64_witness :
  is_u64 7 /\ is_u64 (hash_combine 7 [Hashable (Int t_int (-1)); Hashable nullptr]).
Proof.
  assert (Hs : is_u64 7) by (unfold is_u64, modulus64; lia).
  split; [exact Hs |].
  exact (hash_combine_keeps_u64 7 _ Hs).
Defined.

Lemma zero_is_u64 : is_u64 0.
Proof. unfold is_u64, modulus64. lia. Qed.

Lemma fold_combine_is_hash_combine {T : Type} `{Hash T} (v : list T) :
  forall seed,
    fold_left (fun seed elem => hash_combine seed [Hashable elem]) v seed =
    hash_combine seed (map (fun elem => Hashable elem) v).
Proof.
  induction v as [| x v IH]; intros seed.
  - reflexivity.
  - simpl fold_left. rewrite IH. reflexivity.
Qed.

Lemma tuple_hash_is_hash_combine (t : tuple) :
  hasher t = hash_combine 0 (fields t).
Proof.
  unfold hasher, hash_tuple. cbv zeta.
  rewrite HashValueImpl_apply_fold by (unfold tuple_size, fields; simpl; lia).
  replace (S (tuple_size t - 1)) with (length (fields t))
    by (unfold tuple_size, fields; simpl; lia).
  rewrite firstn_all. symmetry. apply hash_combine_fold.
Qed.

Lemma hash_returns_value (mem : memory) (len : Z) :
  is_u64 len -> returned (hash len mem) = hash_value mem len.
Proof.
  intros Hu. unfold returned. rewrite (proj1 (hash_computes mem len Hu)).
  reflexivity.
Qed.

Lemma hash_value_is_u64 (mem : memory) (len : Z) : is_u64 (hash_value mem len).
Proof.
  unfold hash_value, long_value, finish.
  repeat match goal with |- context [if ?c then _ else _] => destruct c end;
    apply mix_is_u64.
Qed.

(** X11: every specialisation the header defines returns a value below
    [2 ^ 64], on every input; for vectors, pairs and tuples this holds
    whatever their element hashers return. *)
Theorem specialisations_return_u64 :
  hashes_to_u64 pointer /\ hashes_to_u64 unique_ptr /\ hashes_to_u64 shared_ptr /\
  (forall T : integral, hashes_to_u64 (integer T)) /\
  (forall U : integral, hashes_to_u64 (enumeration U)) /\
  hashes_to_u64 basic_string /\ hashes_to_u64 basic_string_view /\
  hashes_to_u64 tuple /\
  (forall (T U : Type) (HT : Hash T) (HU : Hash U), hashes_to_u64 (T * U)) /\
  (forall (T : Type) (HT : Hash T), hashes_to_u64 (list T)).
Proof.
  unfold hashes_to_u64.
  repeat match goal with |- _ /\ _ => split end;
    try (intros; apply mix_is_u64).
  - intros str. unfold hasher, hash_basic_string; cbv beta.
    rewrite hash_returns_value by apply to_u64_is_u64. apply hash_value_is_u64.
  - intros sv. unfold hasher, hash_basic_string_view; cbv beta.
    rewrite hash_returns_value by apply to_u64_is_u64. apply hash_value_is_u64.
  - intros t. rewrite tuple_hash_is_hash_combine.
    apply hash_combine_is_u64, zero_is_u64.
  - intros T U HT HU p. apply hash_combine_is_u64, zero_is_u64.
  - intros T HT v. unfold hasher, hash_vector. cbv zeta.
    rewrite fold_combine_is_hash_combine.
    apply hash_combine_is_u64, zero_is_u64.
Qed.

(** X12: a vector hashes like the tuple of its elements and, with two
    elements, like their pair; the empty vector hashes to 0; and appending
    an element combines it into the hash of the vector so far. *)
Theorem vector_hash_structure {T : Type} `{Hash T} (x y : T) (xs : list T) :
  hasher (@nil T) = 0 /\
  hasher (x :: xs) = hasher (Tuple (Hashable x) (map (fun e => Hashable e) xs)) /\
  hasher [x; y] = hasher (x, y) /\
  hasher (xs ++ [y]) = hash_combine (hasher xs) [Hashable y].
Proof.
  split; [reflexivity | split; [| split]].
  - rewrite tuple_hash_is_hash_combine.
    unfold hasher at 1, hash_vector. cbv zeta.
    rewrite fold_combine_is_hash_combine. reflexivity.
  - reflexivity.
  - unfold hasher, hash_vector. cbv zeta. rewrite fold_left_app. reflexivity.
Qed.

(** ** Text *)

(** X13: a string and a string view with the same element width, the same
    size and the same bytes in their [size * sizeof(CharT)] bytes of storage
    hash alike, whatever lies beyond; the hash is [hash_value] of those
    bytes, loaded from nowhere else; an empty string hashes to one constant
    whatever [data()] points to. *)
Theorem text_hash_by_content (str : basic_string) (sv : basic_string_view) :
  let bytes := str_sizeof_CharT str * str_size str in
  0 <= bytes < 2 ^ 64 ->
  sv_sizeof_CharT sv = str_sizeof_CharT str ->
  sv_size sv = str_size str ->
  (forall o, 0 <= o < bytes -> sv_data sv o = str_data str o) ->
  hasher sv = hasher str /\
  hasher str = hash_value (str_data str) bytes /\
  Forall (fun o => 0 <= o < bytes) (loads (hash bytes (str_data str))) /\
  (bytes = 0 -> hasher str = 4808886099364463827).
Proof.
  cbv zeta. intros Hbytes Ew En Hsame.
  set (bytes := str_sizeof_CharT str * str_size str) in *.
  assert (Hu : is_u64 bytes) by exact Hbytes.
  assert (Elen : str_sizeof_CharT str *% str_size str = bytes)
    by (unfold mul64, to_u64; apply Z.mod_small; exact Hbytes).
  destruct (hash_computes (str_data str) bytes Hu) as [Hres Hin].
  assert (Hstr : hasher str = hash_value (str_data str) bytes).
  { unfold hasher, hash_basic_string; cbv beta. rewrite Elen.
    apply hash_returns_value. exact Hu. }
  split; [| split; [exact Hstr | split; [exact Hin |]]].
  - rewrite Hstr. unfold hasher, hash_basic_string_view; cbv beta.
    rewrite Ew, En, Elen.
    rewrite (log_sound_hash bytes (str_data str) (sv_data sv)).
    + apply hash_returns_value. exact Hu.
    + intros o Ho. apply Hsame.
      unfold within in Hin. rewrite Forall_forall in Hin. apply Hin. exact Ho.
  - intros E0. rewrite Hstr, E0. reflexivity.
Qed.

Lemma text_hash_by_content_witness :
  hasher (BasicStringView 1 (memory_of [x61; x62; x63; x64; x65]) 3) =
  hasher (BasicString 1 (memory_of [x61; x62; x63]) 3).
Proof.
  refine (proj1 (text_hash_by_content
                   (BasicString 1 (memory_of [x61; x62; x63]) 3)
                   (BasicStringView 1 (memory_of [x61; x62; x63; x64; x65]) 3)
                   _ eq_refl eq_refl _)).
  - simpl. lia.
  - intros o Ho. simpl in Ho.
    assert (Hcases : o = 0 \/ o = 1 \/ o = 2) by lia.
    destruct Hcases as [-> | [-> | ->]]; reflexivity.
Defined.

(** X14: [HashValueImpl<Tuple, Index>::apply] combines exactly the fields
    [0 .. Index] into the seed it is given, lowest index first, as one call
    of [hash_combine] on those fields would; later fields play no part. *)
Theorem HashValueImpl_combines_prefix (t : tuple) (Index : nat) (seed : Z) :
  (Index < tuple_size t)%nat ->
  HashValueImpl_apply Index seed t =
    hash_combine seed (firstn (S Index) (fields t)).
Proof.
  intros Hlt. rewrite HashValueImpl_apply_fold by exact Hlt.
  symmetry. apply hash_combine_fold.
Qed.

Lemma HashValueImpl_combines_prefix_witness :
  (1 < tuple_size (Tuple (Hashable (Int t_int 1))
                         [Hashable nullptr; Hashable (Int t_bool 1)]))%nat /\
  HashValueImpl_apply 1 5
    (Tuple (Hashable (Int t_int 1)) [Hashable nullptr; Hashable (Int t_bool 1)]) =
  hash_combine 5 [Hashable (Int t_int 1); Hashable nullptr].
Proof.
  assert (Hlt : (1 < tuple_size (Tuple (Hashable (Int t_int 1))
                    [Hashable nullptr; Hashable (Int t_bool 1)]))%nat)
    by (unfold tuple_size, fields; simpl; lia).
  split; [exact Hlt |].
  exact (HashValueImpl_combines_prefix _ 1 5 Hlt).
Defined.
